(** * pscanner: the port-set resolver and the concurrent scan engine

    A shallow embedding of [cmd/pscanner/main.go].

    - Part 1 embeds [parsePorts] together with the pieces of the Go
      standard library it calls ([strings.Split], [strings.TrimSpace],
      [strings.Contains], [strings.SplitN], [strconv.Atoi], [sort.Ints]).
    - Part 2 embeds the goroutines started by [main] (the workers, the
      coordinator waiting on the [sync.WaitGroup], the distributor and the
      collecting loop of [main] itself) as an interleaving transition system
      over the two channels.

    Go strings are byte sequences: they are modelled as [list ascii].  A Go
    [int] is modelled as a [Z] in the 64-bit range (the only place where the
    width is visible is the range check of [strconv.Atoi]). *)

From Stdlib Require Import ZArith Ascii String.
From stdpp Require Import base tactics option list list_numbers sorting gmap strings.

Local Open Scope Z_scope.
Set Warnings "-clear-no-such-hyp".

(** ** Part 1: Go strings and the library functions used by [parsePorts] *)

Module GoString.

Abbreviation bytes := (list ascii).

(** A string literal of the source, as the bytes it denotes. *)
Definition go (s : string) : bytes := list_ascii_of_string s.

Definition byte (n : N) : ascii := ascii_of_N n.

Definition comma : ascii := "," % char.
Definition dash : ascii := "-" % char.
Definition plus : ascii := "+" % char.

(** [strings.Split(s, sep)] for a one-byte separator: the pieces between
    the occurrences of [sep]; never the empty list (the empty string gives
    one empty piece). *)
Fixpoint Split (s : bytes) (sep : ascii) : list bytes :=
  match s with
  | [] => [[]]
  | c :: r =>
      if decide (c = sep) then [] :: Split r sep
      else match Split r sep with
           | t :: ts => (c :: t) :: ts
           | [] => [[c]]
           end
  end.

(** [strings.Contains(s, sep)] for a one-byte [sep]. *)
Definition Contains (s : bytes) (sep : ascii) : bool :=
  bool_decide (sep ∈ s).

(** The cut of [s] at the first occurrence of [sep]. *)
Fixpoint cut (s : bytes) (sep : ascii) : option (bytes * bytes) :=
  match s with
  | [] => None
  | c :: r =>
      if decide (c = sep) then Some ([], r)
      else '(a, b) ← cut r sep; Some (c :: a, b)
  end.

(** [strings.SplitN(s, sep, 2)]: at most two pieces, the second one is the
    unsplit rest. *)
Definition SplitN2 (s : bytes) (sep : ascii) : list bytes :=
  match cut s sep with
  | Some (a, b) => [a; b]
  | None => [s]
  end.

(** The UTF-8 encodings of the code points for which [unicode.IsSpace]
    holds: U+0009..U+000D, U+0020, U+0085, U+00A0, U+1680,
    U+2000..U+200A, U+2028, U+2029, U+202F, U+205F, U+3000. *)
Definition space_runes : list bytes :=
  (map (λ n, [byte n]) [9; 10; 11; 12; 13; 32] ++
   map (λ n, [byte 194; byte n]) [133; 160] ++
   [[byte 225; byte 154; byte 128]] ++
   map (λ n, [byte 226; byte 128; byte n])
       [128; 129; 130; 131; 132; 133; 134; 135; 136; 137; 138; 168; 169; 175] ++
   [[byte 226; byte 129; byte 159]; [byte 227; byte 128; byte 128]])%N.

(** [strip_prefix p s] is the rest of [s] after the prefix [p]. *)
Fixpoint strip_prefix (p s : bytes) : option bytes :=
  match p, s with
  | [], _ => Some s
  | a :: p', b :: s' => if decide (a = b) then strip_prefix p' s' else None
  | _ :: _, [] => None
  end.

(** The rest of [s] after one leading rune out of [runes], if [s] starts
    with one. *)
Fixpoint strip_rune (runes : list bytes) (s : bytes) : option bytes :=
  match runes with
  | [] => None
  | r :: rs =>
      match strip_prefix r s with
      | Some s' => Some s'
      | None => strip_rune rs s
      end
  end.

(** Drops leading runes of [runes]; [n] bounds the number of runes dropped
    and [length s] is always enough. *)
Fixpoint strip_runes (runes : list bytes) (n : nat) (s : bytes) : bytes :=
  match n with
  | O => s
  | S n' =>
      match strip_rune runes s with
      | Some s' => strip_runes runes n' s'
      | None => s
      end
  end.

(** Drops every leading rune of [runes]. *)
Definition strip (runes : list bytes) (s : bytes) : bytes :=
  strip_runes runes (length s) s.

Definition TrimLeft (s : bytes) : bytes := strip space_runes s.

(** Trailing runes are the leading runes of the reversed string, read
    backwards. *)
Definition TrimRight (s : bytes) : bytes :=
  rev (strip (map (@rev ascii) space_runes) (rev s)).

(** [strings.TrimSpace(s)]: [s] without leading and trailing white space
    as defined by Unicode. *)
Definition TrimSpace (s : bytes) : bytes := TrimRight (TrimLeft s).

(** The width of Go's [int] on the 64-bit targets. *)
Definition intSize : Z := 64.
Definition minInt : Z := - 2 ^ (intSize - 1).
Definition maxInt : Z := 2 ^ (intSize - 1) - 1.

Definition digit (c : ascii) : option Z :=
  let n := Z.of_N (N_of_ascii c) in
  if (48 <=? n) && (n <=? 57) then Some (n - 48) else None.

(** The value of a run of decimal digits, most significant first. *)
Fixpoint digits (acc : Z) (s : bytes) : option Z :=
  match s with
  | [] => Some acc
  | c :: r => d ← digit c; digits (acc * 10 + d) r
  end.

(** [strconv.Atoi(s)]: an optional sign followed by at least one decimal
    digit, the value within the range of [int]; [None] stands for a
    non-nil error (syntax or range). *)
Definition Atoi (s : bytes) : option Z :=
  match s with
  | [] => None
  | c :: r =>
      let neg := bool_decide (c = dash) in
      let body := if bool_decide (c = dash) || bool_decide (c = plus) then r else s in
      match body with
      | [] => None
      | _ :: _ =>
          n ← digits 0 body;
          let v := if neg then - n else n in
          if (minInt <=? v) && (v <=? maxInt) then Some v else None
      end
  end.

End GoString.

Import GoString.

(** [sort.Ints]: the ascending rearrangement of a slice of ints. *)
Definition sortInts (l : list Z) : list Z := merge_sort Z.le l.

(** ** The port-set resolver *)

(** The errors [parsePorts] builds with [fmt.Errorf], one constructor per
    format string, carrying the formatted argument. *)
Inductive error : Type :=
  | InvalidRangeSyntax (p : bytes)   (* "invalid range: %s" *)
  | InvalidPort (s : bytes)          (* "invalid port: %s" *)
  | InvalidRange (p : bytes)         (* "invalid range bounds: %s" *)
  | PortOutOfRange (n : Z).          (* "port out of range: %d" *)

(** The loop [for i := start; i <= end; i++ { set[i] = struct{}{} }]. *)
Definition add_range (set : gset Z) (start end_ : Z) : gset Z :=
  foldl (λ acc i, {[ i ]} ∪ acc) set (seqZ start (end_ - start + 1)).

(** One iteration of the loop over [parts] (lines 19 to 53): the updated
    set, or the error returned. *)
Definition parse_token (set : gset Z) (p0 : bytes) : error + gset Z :=
  let p := TrimSpace p0 in
  if decide (p = []) then inr set
  else if Contains p dash then
    match SplitN2 p dash with
    | [b0; b1] =>
        match Atoi (TrimSpace b0) with
        | None => inl (InvalidPort b0)
        | Some start =>
            match Atoi (TrimSpace b1) with
            | None => inl (InvalidPort b1)
            | Some end_ =>
                if (start <? 1) || (end_ <? 1) || (65535 <? start)
                   || (65535 <? end_) || (end_ <? start)
                then inl (InvalidRange p)
                else inr (add_range set start end_)
            end
        end
    | _ => inl (InvalidRangeSyntax p)
    end
  else
    match Atoi p with
    | None => inl (InvalidPort p)
    | Some n =>
        if (n <? 1) || (65535 <? n) then inl (PortOutOfRange n)
        else inr ({[ n ]} ∪ set)
    end.

(** The loop over [parts], stopping at the first error. *)
Fixpoint parse_tokens (set : gset Z) (parts : list bytes) : error + gset Z :=
  match parts with
  | [] => inr set
  | p :: rest =>
      match parse_token set p with
      | inl e => inl e
      | inr set' => parse_tokens set' rest
      end
  end.

(** [parsePorts]: the keys of the set are collected in the unspecified
    iteration order of the map and then sorted. *)
Definition parsePorts (spec : bytes) : error + list Z :=
  match parse_tokens ∅ (Split spec comma) with
  | inl e => inl e
  | inr set => inr (sortInts (elements set))
  end.


(** ** The start of [main] (lines 104 to 129) *)

(** The values of the four flags after [flag.Parse]. *)
Record Flags : Type := {
  hostFlag : bytes;
  portsFlag : bytes;
  workersFlag : Z;
  timeoutFlag : Z
}.

(** What [main] writes to the standard error stream. *)
Inductive stderr_line : Type :=
  | Line (s : string)        (* [fmt.Fprintln(os.Stderr, s)] *)
  | Usage                    (* the text printed by [flag.Usage] *)
  | ParseError (e : error).  (* "error parsing ports: %v" *)

(** [main] either leaves through [os.Exit] before any goroutine or channel
    exists, or goes on to the scan with the resolved ports. *)
Inductive startup : Type :=
  | Exit (code : Z) (stderr : list stderr_line)
  | Scan (ports : list Z).

Definition main_startup (f : Flags) : startup :=
  if decide (hostFlag f = []) then
    Exit 2 [Line "error: --host is required"; Usage]
  else if workersFlag f <=? 0 then
    Exit 2 [Line "error: --workers must be > 0"]
  else if 10000 <? workersFlag f then
    Exit 2 [Line "error: --workers too large (max 10000)"]
  else
    match parsePorts (portsFlag f) with
    | inl e => Exit 2 [ParseError e]
    | inr ports =>
        if decide (length ports = 0%nat) then Exit 0 [Line "no ports to scan"]
        else Scan ports
    end.

(** ** Vocabulary of the statements *)

(** [runs_of runes w]: [w] is a concatenation of elements of [runes]. *)
Inductive runs_of (runes : list bytes) : bytes → Prop :=
  | runs_nil : runs_of runes []
  | runs_cons r w : r ∈ runes → runs_of runes w → runs_of runes (r ++ w).

(** A string that consists only of white space (as [unicode.IsSpace] has
    it, in UTF-8). *)
Definition whitespace (w : bytes) : Prop := runs_of space_runes w.

(** A byte that is a decimal digit. *)
Definition is_digit (c : ascii) : Prop := is_Some (digit c).

(** A byte that [strconv.Atoi] can accept somewhere: a digit or a sign. *)
Definition numeric_byte (c : ascii) : bool :=
  bool_decide (is_Some (digit c)) || bool_decide (c = dash) || bool_decide (c = plus).

(** A specification that is empty or made of white space and commas
    only. *)
Inductive blank_spec : bytes → Prop :=
  | blank_nil : blank_spec []
  | blank_comma s : blank_spec s → blank_spec (comma :: s)
  | blank_space r s : r ∈ space_runes → blank_spec s → blank_spec (r ++ s).

(** The shape of a token as the loop tests it: a single port is a non-blank
    token without a dash that [Atoi] accepts. *)
Definition token_literal (t : bytes) : option Z :=
  let p := TrimSpace t in
  if decide (p = []) then None
  else if Contains p dash then None
  else Atoi p.

(** A range is a non-blank token with a dash, both sides of the first dash
    being accepted by [Atoi] once trimmed. *)
Definition token_range (t : bytes) : option (Z * Z) :=
  let p := TrimSpace t in
  if decide (p = []) then None
  else if Contains p dash then
    match SplitN2 p dash with
    | [b0; b1] =>
        a ← Atoi (TrimSpace b0); b ← Atoi (TrimSpace b1); Some (a, b)
    | _ => None
    end
  else None.

(** The port [x] is named by the token [t]. *)
Definition token_has (t : bytes) (x : Z) : Prop :=
  token_literal t = Some x ∨
  ∃ a b, token_range t = Some (a, b) ∧ a ≤ x ≤ b.

(** No byte inside a white-space rune, after its first one, starts a
    white-space rune. *)
Definition rune_tails_checked : bool :=
  forallb (λ r, forallb (λ c, forallb (λ r', negb (bool_decide (head r' = Some c)))
                                      space_runes)
                        (tail r))
          space_runes.

(** ** Part 2: the scan engine (lines 131 to 174 of [main], and [worker]) *)

(** A channel of ints: its capacity, the values buffered and whether it has
    been closed. *)
Record chan : Type := Chan { cap : Z; buf : list Z; closed : bool }.

(** [make(chan int, n)]; [make(chan int)] is [make_chan 0]. *)
Definition make_chan (n : Z) : chan := {| cap := n; buf := []; closed := false |}.

(** Where a [worker] goroutine stands: at the receive of [range ports], at
    the dial of the port it received, at the send of an open port on
    [results], or returned (its deferred [wg.Done()] has run). *)
Inductive worker_pc : Type :=
  | WRecv
  | WDial (p : Z)
  | WSend (p : Z)
  | WExit.

(** Where the goroutine of [main] stands: at the test of the loop of line
    140 with counter [i], between [wg.Add(1)] and the [go] statement of that
    iteration, at the [go] statement of line 145, at the one of line 150,
    at the receive of the loop of line 158, or past the report. *)
Inductive main_pc : Type :=
  | MLoop (i : Z)
  | MGo (i : Z)
  | MGoCoord
  | MGoDist
  | MRange
  | MDone.

(** The goroutine of line 145: in [wg.Wait()], before [close(resultsCh)],
    or returned. *)
Inductive coord_pc : Type :=
  | CWait
  | CClose
  | CDone.

(** The goroutine of line 150: the ports it has still to send, or
    returned after [close(portsCh)]. *)
Inductive dist_pc : Type :=
  | DSend (rest : list Z)
  | DDone.

Global Instance worker_pc_eq_dec : EqDecision worker_pc.
Proof. solve_decision. Defined.
Global Instance main_pc_eq_dec : EqDecision main_pc.
Proof. solve_decision. Defined.

Record state : Type := State {
  mainpc : main_pc;
  open : list Z;               (* the slice [open] of line 157 *)
  portsCh : chan;
  resultsCh : chan;
  wg : Z;                      (* the counter of the [sync.WaitGroup] *)
  workers : list worker_pc;    (* the workers started so far *)
  coord : option coord_pc;     (* [None]: not started yet *)
  dist : option dist_pc;       (* [None]: not started yet *)
  dialed : list Z;             (* the ports given to [net.DialTimeout] so far *)
  panicked : bool              (* a run-time panic has ended the process *)
}.

Definition set_mainpc (v : main_pc) (s : state) : state :=
  State v (open s) (portsCh s) (resultsCh s) (wg s) (workers s) (coord s)
        (dist s) (dialed s) (panicked s).
Definition set_open (v : list Z) (s : state) : state :=
  State (mainpc s) v (portsCh s) (resultsCh s) (wg s) (workers s) (coord s)
        (dist s) (dialed s) (panicked s).
Definition set_portsCh (v : chan) (s : state) : state :=
  State (mainpc s) (open s) v (resultsCh s) (wg s) (workers s) (coord s)
        (dist s) (dialed s) (panicked s).
Definition set_resultsCh (v : chan) (s : state) : state :=
  State (mainpc s) (open s) (portsCh s) v (wg s) (workers s) (coord s)
        (dist s) (dialed s) (panicked s).
Definition set_wg (v : Z) (s : state) : state :=
  State (mainpc s) (open s) (portsCh s) (resultsCh s) v (workers s) (coord s)
        (dist s) (dialed s) (panicked s).
Definition set_workers (v : list worker_pc) (s : state) : state :=
  State (mainpc s) (open s) (portsCh s) (resultsCh s) (wg s) v (coord s)
        (dist s) (dialed s) (panicked s).
Definition set_coord (v : option coord_pc) (s : state) : state :=
  State (mainpc s) (open s) (portsCh s) (resultsCh s) (wg s) (workers s) v
        (dist s) (dialed s) (panicked s).
Definition set_dist (v : option dist_pc) (s : state) : state :=
  State (mainpc s) (open s) (portsCh s) (resultsCh s) (wg s) (workers s)
        (coord s) v (dialed s) (panicked s).
Definition set_dialed (v : list Z) (s : state) : state :=
  State (mainpc s) (open s) (portsCh s) (resultsCh s) (wg s) (workers s)
        (coord s) (dist s) v (panicked s).

(** A run-time panic ([send on closed channel], [close of closed channel],
    [negative WaitGroup counter]) ends the process. *)
Definition panic (s : state) : option state :=
  Some (State (mainpc s) (open s) (portsCh s) (resultsCh s) (wg s) (workers s)
              (coord s) (dist s) (dialed s) true).

Definition set_buf (v : list Z) (c : chan) : chan := Chan (cap c) v (closed c).
Definition close (c : chan) : chan := Chan (cap c) (buf c) true.

(** The goroutines of the program; a schedule is a list of them, each entry
    letting the named goroutine take its next step. *)
Inductive goroutine : Type :=
  | GMain
  | GWorker (k : nat)
  | GCoord
  | GDist.

Section engine.

(** The flags, the resolved ports, and the outcome of
    [net.DialTimeout("tcp", host:p, timeout)] for each port [p]: [true] when
    the error is nil. *)
Variable f : Flags.
Variable ports : list Z.
Variable dial : Z → bool.

(** Lines 136 to 139. *)
Definition numWorkers : Z :=
  if Z.of_nat (length ports) <? workersFlag f then Z.of_nat (length ports)
  else workersFlag f.

(** The state at line 140: both channels made (lines 131 and 132), the
    wait group at zero, no goroutine started. *)
Definition init : state :=
  {| mainpc := MLoop 0; open := [];
     portsCh := make_chan (workersFlag f); resultsCh := make_chan 0;
     wg := 0; workers := []; coord := None; dist := None;
     dialed := []; panicked := false |}.

(** The goroutine of [main], lines 140 to 174. The receive of line 158
    takes a buffered value if there is one and leaves the loop when the
    channel is closed and empty; a value handed over by a sender that finds
    [main] waiting is appended by that sender's step (see [step_worker]).
    Leaving the loop sorts [open] and prints the report. *)
Definition step_main (s : state) : option state :=
  match mainpc s with
  | MLoop i =>
      if i <? numWorkers then Some (set_mainpc (MGo i) (set_wg (wg s + 1) s))
      else Some (set_mainpc MGoCoord s)
  | MGo i =>
      Some (set_mainpc (MLoop (i + 1)) (set_workers (workers s ++ [WRecv]) s))
  | MGoCoord => Some (set_mainpc MGoDist (set_coord (Some CWait) s))
  | MGoDist => Some (set_mainpc MRange (set_dist (Some (DSend ports)) s))
  | MRange =>
      match buf (resultsCh s) with
      | p :: b =>
          Some (set_open (open s ++ [p]) (set_resultsCh (set_buf b (resultsCh s)) s))
      | [] =>
          if closed (resultsCh s)
          then Some (set_mainpc MDone (set_open (sortInts (open s)) s))
          else None
      end
  | MDone => None
  end.

(** The goroutine [worker], lines 62 to 72, for the worker number [k].
    - At the receive: a buffered port is taken; on a closed and empty
      channel the loop ends and the deferred [wg.Done()] runs; otherwise the
      worker waits.
    - At the dial: the port is recorded as dialed, and the worker goes on
      to the send if the dial succeeded, back to the receive if not.
    - At the send on [results]: a closed channel panics; a free buffer slot
      takes the value; otherwise the value goes directly to [main] if
      [main] waits at its receive, and the worker waits if not. *)
Definition step_worker (k : nat) (s : state) : option state :=
  match workers s !! k with
  | None => None
  | Some WRecv =>
      match buf (portsCh s) with
      | p :: b =>
          Some (set_workers (<[k := WDial p]> (workers s))
                  (set_portsCh (set_buf b (portsCh s)) s))
      | [] =>
          if closed (portsCh s) then
            if wg s - 1 <? 0 then panic s
            else Some (set_workers (<[k := WExit]> (workers s)) (set_wg (wg s - 1) s))
          else None
      end
  | Some (WDial p) =>
      Some (set_workers (<[k := if dial p then WSend p else WRecv]> (workers s))
              (set_dialed (dialed s ++ [p]) s))
  | Some (WSend p) =>
      if closed (resultsCh s) then panic s
      else if Z.of_nat (length (buf (resultsCh s))) <? cap (resultsCh s) then
        Some (set_workers (<[k := WRecv]> (workers s))
                (set_resultsCh (set_buf (buf (resultsCh s) ++ [p]) (resultsCh s)) s))
      else
        match mainpc s, buf (resultsCh s) with
        | MRange, [] =>
            Some (set_workers (<[k := WRecv]> (workers s))
                    (set_open (open s ++ [p]) s))
        | _, _ => None
        end
  | Some WExit => None
  end.

(** The goroutine of line 145. *)
Definition step_coord (s : state) : option state :=
  match coord s with
  | Some CWait =>
      if wg s =? 0 then Some (set_coord (Some CClose) s) else None
  | Some CClose =>
      if closed (resultsCh s) then panic s
      else Some (set_coord (Some CDone) (set_resultsCh (close (resultsCh s)) s))
  | Some CDone | None => None
  end.

(** The goroutine of line 150. A send waits while the buffer is full (the
    capacity is at least one after the check of line 112, so that no send
    needs a receiver to be waiting). *)
Definition step_dist (s : state) : option state :=
  match dist s with
  | Some (DSend (p :: rest)) =>
      if closed (portsCh s) then panic s
      else if Z.of_nat (length (buf (portsCh s))) <? cap (portsCh s) then
        Some (set_dist (Some (DSend rest))
                (set_portsCh (set_buf (buf (portsCh s) ++ [p]) (portsCh s)) s))
      else None
  | Some (DSend []) =>
      if closed (portsCh s) then panic s
      else Some (set_dist (Some DDone) (set_portsCh (close (portsCh s)) s))
  | Some DDone | None => None
  end.

(** One step of the goroutine [g]; [None] when [g] cannot move (it waits,
    has returned or has not been started) or when the process has ended,
    by a panic or by the return of [main]. *)
Definition step (g : goroutine) (s : state) : option state :=
  if panicked s then None
  else match mainpc s with
       | MDone => None
       | _ =>
           match g with
           | GMain => step_main s
           | GWorker k => step_worker k s
           | GCoord => step_coord s
           | GDist => step_dist s
           end
       end.

(** The state after a schedule, if every entry of it could move. *)
Fixpoint run (sched : list goroutine) (s : state) : option state :=
  match sched with
  | [] => Some s
  | g :: rest => s' ← step g s; run rest s'
  end.

(** The first goroutine that can move, [main] first. *)
Definition first_enabled (s : state) : option goroutine :=
  List.find (λ g, bool_decide (is_Some (step g s)))
    ([GMain; GDist; GCoord] ++ map GWorker (seq 0 (length (workers s)))).

(** The schedule that always runs the first goroutine that can move. *)
Fixpoint eager (fuel : nat) (s : state) : list goroutine :=
  match fuel with
  | O => []
  | S fuel' =>
      match first_enabled s with
      | Some g =>
          match step g s with
          | Some s' => g :: eager fuel' s'
          | None => []
          end
      | None => []
      end
  end.

(** What the report of lines 163 to 174 shows. *)
Record report : Type := Report {
  rep_host : bytes;
  rep_scanned : Z;
  rep_workers : Z;
  rep_timeout : Z;
  rep_open : list Z
}.

Definition report_of (s : state) : option report :=
  match mainpc s with
  | MDone =>
      Some {| rep_host := hostFlag f; rep_scanned := Z.of_nat (length ports);
              rep_workers := numWorkers; rep_timeout := timeoutFlag f;
              rep_open := open s |}
  | _ => None
  end.

End engine.


(** ** The invariant of the engine *)

(** The port a worker holds between its receive and its dial, the port it
    holds between a successful dial and its send, and a token for each
    worker that has not returned. *)
Definition job_of (w : worker_pc) : list Z :=
  match w with WDial p => [p] | _ => [] end.
Definition result_of (w : worker_pc) : list Z :=
  match w with WSend p => [p] | _ => [] end.
Definition live_of (w : worker_pc) : list unit :=
  match w with WExit => [] | _ => [()] end.

Definition inflight (ws : list worker_pc) : list Z := ws ≫= job_of.
Definition sending (ws : list worker_pc) : list Z := ws ≫= result_of.
Definition live (ws : list worker_pc) : Z := Z.of_nat (length (ws ≫= live_of)).

(** The ports that have left the job channel: those dialed and those held
    by a worker about to dial. *)
Definition taken (s : state) : list Z := dialed s ++ inflight (workers s).

(** [wg.Add(1)] has run for a worker that is not started yet. *)
Definition pending_add (pc : main_pc) : Z :=
  match pc with MGo _ => 1 | _ => 0 end.

(** [main] has not reached the [go] statement of line 145, of line 150. *)
Definition before_coord (pc : main_pc) : bool :=
  match pc with MLoop _ | MGo _ | MGoCoord => true | _ => false end.
Definition before_dist (pc : main_pc) : bool :=
  match pc with MLoop _ | MGo _ | MGoCoord | MGoDist => true | _ => false end.

Section engine_invariant.

Variable f : Flags.
Variable ports : list Z.
Variable dial : Z → bool.

(** The number of workers started when [main] stands at [pc]. *)
Definition spawned (pc : main_pc) : Z :=
  match pc with MLoop i | MGo i => i | _ => numWorkers f ports end.

(** The ports the distributor has still to send. *)
Definition todo (s : state) : list Z :=
  match dist s with
  | None => ports
  | Some (DSend rest) => rest
  | Some DDone => []
  end.

Record Inv (s : state) : Prop := {
  inv_panicked : panicked s = false;
  inv_ports_cap : cap (portsCh s) = workersFlag f;
  inv_results_cap : cap (resultsCh s) = 0;
  inv_results_buf : buf (resultsCh s) = [];
  inv_spawned :
    0 ≤ spawned (mainpc s) ≤ numWorkers f ports ∧
    (pending_add (mainpc s) = 1 → spawned (mainpc s) < numWorkers f ports);
  inv_workers : Z.of_nat (length (workers s)) = spawned (mainpc s);
  inv_wg : wg s = live (workers s) + pending_add (mainpc s);
  inv_coord :
    match coord s with
    | None => before_coord (mainpc s) = true ∧ closed (resultsCh s) = false
    | Some CWait => before_coord (mainpc s) = false ∧ closed (resultsCh s) = false
    | Some CClose =>
        before_coord (mainpc s) = false ∧ closed (resultsCh s) = false ∧ wg s = 0
    | Some CDone =>
        before_coord (mainpc s) = false ∧ closed (resultsCh s) = true ∧ wg s = 0
    end;
  inv_dist :
    match dist s with
    | None =>
        before_dist (mainpc s) = true ∧ closed (portsCh s) = false ∧
        buf (portsCh s) = []
    | Some (DSend _) => before_dist (mainpc s) = false ∧ closed (portsCh s) = false
    | Some DDone => before_dist (mainpc s) = false ∧ closed (portsCh s) = true
    end;
  inv_done : mainpc s = MDone → closed (resultsCh s) = true;
  inv_exit : WExit ∈ workers s → closed (portsCh s) = true ∧ buf (portsCh s) = [];
  inv_jobs :
    dialed s ++ inflight (workers s) ++ buf (portsCh s) ++ todo s ≡ₚ ports;
  inv_results :
    open s ++ sending (workers s) ≡ₚ filter (λ p, dial p = true) (dialed s);
  inv_sorted : mainpc s = MDone → Sorted Z.le (open s);
  inv_buffered : Z.of_nat (length (buf (portsCh s))) ≤ cap (portsCh s)
}.

(** The number of steps the program can still take is bounded by this
    measure. *)
Definition main_steps (pc : main_pc) : nat :=
  match pc with
  | MLoop i => 2 * Z.to_nat (numWorkers f ports - i) + 4
  | MGo i => 2 * Z.to_nat (numWorkers f ports - i) + 3
  | MGoCoord => 3
  | MGoDist => 2
  | MRange => 1
  | MDone => 0
  end.

Definition coord_steps (c : option coord_pc) : nat :=
  match c with
  | None | Some CWait => 2
  | Some CClose => 1
  | Some CDone => 0
  end.

Definition dist_steps (d : option dist_pc) : nat :=
  match d with
  | None | Some (DSend _) => 1
  | Some DDone => 0
  end.

Definition measure (s : state) : nat :=
  main_steps (mainpc s) + coord_steps (coord s) + dist_steps (dist s)
  + (Z.to_nat (numWorkers f ports - Z.of_nat (length (workers s)))
     + length (workers s ≫= live_of))
  + 4 * length (todo s) + 3 * length (buf (portsCh s))
  + 2 * length (inflight (workers s)) + length (sending (workers s)).

(** A state reached from the initial one by some schedule. *)
Definition reachable (s : state) : Prop :=
  ∃ sched, run f ports dial sched (init f) = Some s.

(** The ports leave the job channel in the order of the slice [ports]:
    the ports taken so far, the buffered ones and those still to send make
    up [ports]; with a single worker the ports taken so far are, in order,
    those dialed followed by the one about to be dialed. *)
Definition ordered (s : state) : Prop :=
  ∃ k, ports = k ++ buf (portsCh s) ++ todo s ∧
       (numWorkers f ports = 1 → k = taken s).

End engine_invariant.

(** ** A small configuration on which the model is run *)

Definition example_flags (workers : Z) : Flags :=
  {| hostFlag := go "localhost"; portsFlag := go "80,443,8080";
     workersFlag := workers; timeoutFlag := 500 |}.

Definition example_ports : list Z := [80; 443; 8080].

(** Only port 443 accepts connections. *)
Definition example_dial (p : Z) : bool := bool_decide (p = 443).

(** The eager schedule of the example with [workers] requested workers. *)
Definition example_schedule (workers : Z) : list goroutine :=
  eager (example_flags workers) example_ports example_dial 100
        (init (example_flags workers)).

(** Every dial fails (refused or timed out). *)
Definition refused_dial (p : Z) : bool := false.

(** The eager schedule of the example with two requested workers when
    every dial fails. *)
Definition refused_schedule : list goroutine :=
  eager (example_flags 2) example_ports refused_dial 100
        (init (example_flags 2)).

(** ** The report as printed (lines 163 to 174) *)

(** The lines [main] writes to the standard output, one constructor per
    [Printf] or [Println]. *)
Inductive stdout_line : Type :=
  | OutHost (h : bytes)      (* "Host: %s" *)
  | OutScanned (n : Z)       (* "Scanned ports: %d" *)
  | OutWorkers (n : Z)       (* "Workers used: %d" *)
  | OutTimeout (ms : Z)      (* "Timeout: %dms" *)
  | OutOpenPorts             (* "Open ports:" *)
  | OutNoneFound             (* "  (none found)" *)
  | OutPort (p : Z).         (* "  %d" *)

Definition print_report (r : report) : list stdout_line :=
  [OutHost (rep_host r); OutScanned (rep_scanned r); OutWorkers (rep_workers r);
   OutTimeout (rep_timeout r); OutOpenPorts]
  ++ (if decide (length (rep_open r) = 0%nat) then [OutNoneFound]
      else map OutPort (rep_open r)).
(** ** Facts about the string functions *)



Lemma strip_prefix_Some r s s' : strip_prefix r s = Some s' ↔ s = r ++ s'.
Proof.
  revert s. induction r as [|a r IH]; intros [|b s]; simpl.
  - split; congruence.
  - split; congruence.
  - split; [done|]. by intros [=].
  - case_decide as Hab.
    + subst. rewrite IH. split; congruence.
    + split; [done|]. intros [=]. done.
Qed.

Lemma strip_rune_Some runes s s' :
  strip_rune runes s = Some s' → ∃ r, r ∈ runes ∧ s = r ++ s'.
Proof.
  induction runes as [|r runes IH]; simpl; [done|].
  destruct (strip_prefix r s) as [s1|] eqn:E.
  - intros [= ->]. apply strip_prefix_Some in E. exists r. split; [left|done].
  - intros (r' & ? & ?)%IH. exists r'. split; [by right|done].
Qed.

Lemma strip_rune_None runes s :
  strip_rune runes s = None ↔ ∀ r, r ∈ runes → strip_prefix r s = None.
Proof.
  induction runes as [|r runes IH]; simpl.
  - split; [|done]. intros _ r Hr. by apply elem_of_nil in Hr.
  - destruct (strip_prefix r s) eqn:E.
    + split; [done|]. intros H. specialize (H r (list_elem_of_here _ _)). congruence.
    + rewrite IH. split.
      * intros H r' [->|Hr']%elem_of_cons; auto.
      * intros H r' Hr'. apply H. by right.
Qed.

Section strip.

Variable runes : list bytes.
Hypothesis runes_nonempty : [] ∉ runes.
Hypothesis runes_prefix_free :
  ∀ r s, r ∈ runes → strip_rune runes (r ++ s) = Some s.

Local Abbreviation strip := (strip runes).

Lemma strip_rune_shorter s s' :
  strip_rune runes s = Some s' → (length s' < length s)%nat.
Proof.
  intros (r & Hr & ->)%strip_rune_Some. rewrite length_app.
  destruct r; [done|]. simpl. lia.
Qed.

Lemma strip_rune_nil : strip_rune runes [] = None.
Proof.
  destruct (strip_rune runes []) eqn:E; [|done].
  apply strip_rune_shorter in E. simpl in E. lia.
Qed.

Lemma strip_runes_enough n m s :
  (length s ≤ n)%nat → (length s ≤ m)%nat →
  strip_runes runes n s = strip_runes runes m s.
Proof.
  revert m s. induction n as [|n IH]; intros [|m] s Hn Hm; simpl; try done.
  - destruct s; [|simpl in Hn; lia]. by rewrite strip_rune_nil.
  - destruct s; [|simpl in Hm; lia]. by rewrite strip_rune_nil.
  - destruct (strip_rune runes s) as [s'|] eqn:E; [|done].
    apply strip_rune_shorter in E. apply IH; lia.
Qed.

Lemma strip_step s s' : strip_rune runes s = Some s' → strip s = strip s'.
Proof.
  intros E. unfold strip. pose proof (strip_rune_shorter _ _ E) as Hlen.
  destruct (length s) as [|n] eqn:En; [lia|]. simpl. rewrite E.
  apply strip_runes_enough; lia.
Qed.

Lemma strip_stop s : strip_rune runes s = None → strip s = s.
Proof. intros E. unfold strip. destruct (length s); simpl; by rewrite ?E. Qed.

Lemma strip_runs w s : runs_of runes w → strip (w ++ s) = strip s.
Proof.
  induction 1 as [|r w Hr _ IH]; [done|].
  rewrite <- IH, <- app_assoc. apply strip_step. by apply runes_prefix_free.
Qed.

Lemma strip_nil : strip [] = [].
Proof. done. Qed.

(** A string whose first byte starts no rune is left alone. *)
Lemma strip_solid c s :
  (∀ r, r ∈ runes → head r ≠ Some c) → strip (c :: s) = c :: s.
Proof.
  intros Hc. apply strip_stop, strip_rune_None. intros r Hr.
  destruct (strip_prefix r (c :: s)) as [s'|] eqn:E; [|done].
  apply strip_prefix_Some in E. destruct r as [|a r]; [done|].
  simplify_eq/=. by destruct (Hc _ Hr).
Qed.

End strip.

Lemma runs_of_app runes w1 w2 :
  runs_of runes w1 → runs_of runes w2 → runs_of runes (w1 ++ w2).
Proof.
  induction 1 as [|r w Hr _ IH]; intros H2; [done|].
  rewrite <- app_assoc. constructor; auto.
Qed.

Lemma runs_of_rev runes w :
  runs_of runes w → runs_of (map (@rev ascii) runes) (rev w).
Proof.
  induction 1 as [|r w Hr _ IH]; simpl; [constructor|].
  rewrite rev_app_distr. apply runs_of_app; [done|].
  rewrite <- (app_nil_r (rev r)). constructor; [|constructor].
  apply list_elem_of_In, in_map, list_elem_of_In, Hr.
Qed.

Lemma runs_of_elem runes w c :
  runs_of runes w → c ∈ w → ∃ r, r ∈ runes ∧ c ∈ r.
Proof.
  induction 1 as [|r w Hr _ IH]; [by intros ?%elem_of_nil|].
  intros [?|?]%elem_of_app; eauto.
Qed.

Lemma space_runes_nonempty : [] ∉ space_runes.
Proof. apply (bool_decide_unpack _). by vm_compute. Qed.

Lemma rev_space_runes_nonempty : [] ∉ map (@rev ascii) space_runes.
Proof. apply (bool_decide_unpack _). by vm_compute. Qed.

Lemma space_runes_prefix_free r s :
  r ∈ space_runes → strip_rune space_runes (r ++ s) = Some s.
Proof.
  revert r. apply Forall_forall. repeat constructor.
Qed.

Lemma rev_space_runes_prefix_free r s :
  r ∈ map (@rev ascii) space_runes →
  strip_rune (map (@rev ascii) space_runes) (r ++ s) = Some s.
Proof.
  revert r. apply Forall_forall. repeat constructor.
Qed.

(** No byte of a white-space rune is a digit, a sign or a comma. *)
Lemma space_rune_bytes r c :
  r ∈ space_runes → c ∈ r → numeric_byte c = false ∧ c ≠ comma.
Proof.
  intros Hr Hc.
  assert (Hall : forallb (λ c, negb (numeric_byte c) && negb (bool_decide (c = comma)))
                         (concat space_runes) = true) by by vm_compute.
  rewrite forallb_forall in Hall.
  assert (Hin : In c (concat space_runes)).
  { apply in_concat. exists r. by rewrite <- !list_elem_of_In. }
  apply Hall, andb_prop in Hin as [H1 H2].
  apply negb_true_iff in H1, H2. split; [done|].
  by apply bool_decide_eq_false in H2.
Qed.

Lemma whitespace_bytes w c :
  whitespace w → c ∈ w → numeric_byte c = false ∧ c ≠ comma.
Proof.
  intros Hw Hc. destruct (runs_of_elem _ _ _ Hw Hc) as (r & ? & ?).
  eauto using space_rune_bytes.
Qed.

Lemma numeric_byte_digit c : is_digit c → numeric_byte c = true.
Proof.
  intros Hd. unfold numeric_byte. by rewrite (bool_decide_eq_true_2 _ Hd).
Qed.

Lemma numeric_byte_no_head c r :
  numeric_byte c = true → r ∈ space_runes → head r ≠ Some c.
Proof.
  intros Hc Hr Hh. destruct r as [|a r']; simplify_eq/=.
  destruct (space_rune_bytes _ c Hr) as [? _]; [left|congruence].
Qed.

Lemma numeric_byte_no_last c r :
  numeric_byte c = true → r ∈ map (@rev ascii) space_runes → head r ≠ Some c.
Proof.
  intros Hc Hr Hh. apply list_elem_of_In, in_map_iff in Hr as (r0 & <- & Hr0).
  apply list_elem_of_In in Hr0.
  destruct (space_rune_bytes r0 c Hr0) as [? _]; [|congruence].
  apply list_elem_of_In, in_rev, list_elem_of_In.
  destruct (rev r0); simplify_eq/=. left.
Qed.

Lemma TrimLeft_whitespace w s : whitespace w → TrimLeft (w ++ s) = TrimLeft s.
Proof.
  apply strip_runs; auto using space_runes_nonempty, space_runes_prefix_free.
Qed.

Lemma TrimRight_whitespace w s : whitespace w → TrimRight (s ++ w) = TrimRight s.
Proof.
  intros Hw. unfold TrimRight. rewrite rev_app_distr. f_equal.
  apply strip_runs;
    auto using rev_space_runes_nonempty, rev_space_runes_prefix_free, runs_of_rev.
Qed.

(** White space trims to the empty string. *)
Lemma TrimSpace_whitespace w : whitespace w → TrimSpace w = [].
Proof.
  intros Hw. unfold TrimSpace.
  rewrite <- (app_nil_r w), TrimLeft_whitespace by done. done.
Qed.

(** A string that starts and ends with a digit or a sign loses exactly the
    white space around it. *)
Lemma TrimSpace_pad w1 x w2 :
  whitespace w1 → whitespace w2 →
  (∃ c, head x = Some c ∧ numeric_byte c = true) →
  (∃ c, last x = Some c ∧ numeric_byte c = true) →
  TrimSpace (w1 ++ x ++ w2) = x.
Proof.
  intros Hw1 Hw2 (c1 & Hh & Hc1) (c2 & Hl & Hc2). unfold TrimSpace.
  rewrite TrimLeft_whitespace by done.
  assert (HL : TrimLeft (x ++ w2) = x ++ w2).
  { destruct x as [|a x]; simplify_eq/=.
    apply strip_solid; [apply space_runes_nonempty|].
    intros r. by apply numeric_byte_no_head. }
  rewrite HL, TrimRight_whitespace by done.
  apply last_Some in Hl as [x' ->].
  unfold TrimRight. rewrite <- (rev_involutive (x' ++ [c2])) at 2. f_equal.
  rewrite rev_unit.
  apply strip_solid; [apply rev_space_runes_nonempty|].
  intros r. by apply numeric_byte_no_last.
Qed.

Lemma digits_Some acc s n : digits acc s = Some n → Forall is_digit s.
Proof.
  revert acc. induction s as [|c s IH]; intros acc; simpl; [constructor|].
  destruct (digit c) as [d|] eqn:E; simpl; [|done].
  intros H. constructor; [unfold is_digit; by rewrite E|eauto].
Qed.

(** [Atoi] accepts nothing but digits and signs. *)
Lemma Atoi_Some_bytes s v : Atoi s = Some v → Forall (λ c, numeric_byte c = true) s.
Proof.
  unfold Atoi. destruct s as [|c r]; [done|].
  assert (Hd : ∀ l n, digits 0 l = Some n → Forall (λ c, numeric_byte c = true) l).
  { intros l n H%digits_Some. eapply Forall_impl; [done|].
    intros. by apply numeric_byte_digit. }
  assert (Hsign : bool_decide (c = dash) || bool_decide (c = plus) = true →
                  numeric_byte c = true).
  { unfold numeric_byte. destruct (bool_decide (c = dash)), (bool_decide (c = plus));
      rewrite ?orb_true_r; done. }
  destruct (bool_decide (c = dash) || bool_decide (c = plus)) eqn:E.
  - destruct r as [|c' r']; [done|].
    destruct (digits 0 (c' :: r')) as [n|] eqn:En; [|done]. intros _.
    constructor; eauto.
  - destruct (digits 0 (c :: r)) as [n|] eqn:En; [|done]. intros _. eauto.
Qed.

(** A token that holds a white-space rune anywhere is refused by [Atoi]. *)
Lemma Atoi_space x r y : r ∈ space_runes → Atoi (x ++ r ++ y) = None.
Proof.
  intros Hr. destruct (Atoi _) as [v|] eqn:E; [|done].
  apply Atoi_Some_bytes in E. rewrite Forall_forall in E.
  destruct r as [|c r'].
  { by destruct space_runes_nonempty. }
  destruct (space_rune_bytes _ c Hr) as [Hc _]; [left|].
  rewrite E in Hc; [done|]. set_solver.
Qed.

Lemma Split_sep s sep : Split (sep :: s) sep = [] :: Split s sep.
Proof. simpl. by rewrite decide_True. Qed.

Lemma Split_nonnil s sep : Split s sep ≠ [].
Proof. destruct s as [|c s]; simpl; [done|]. by repeat case_match. Qed.

Lemma Split_app r s sep :
  sep ∉ r →
  ∃ t ts, Split s sep = t :: ts ∧ Split (r ++ s) sep = (r ++ t) :: ts.
Proof.
  induction r as [|c r IH]; intros Hr.
  - destruct (Split s sep) as [|t ts] eqn:E; [by destruct (Split_nonnil s sep)|].
    by exists t, ts.
  - destruct IH as (t & ts & E1 & E2); [set_solver|].
    exists t, ts. split; [done|]. simpl.
    rewrite decide_False by set_solver. by rewrite E2.
Qed.

Lemma cut_app a b sep : sep ∉ a → cut (a ++ sep :: b) sep = Some (a, b).
Proof.
  induction a as [|c a IH]; intros Ha; simpl.
  - by rewrite decide_True.
  - rewrite decide_False by set_solver. rewrite IH by set_solver. done.
Qed.

Lemma Split_blank s : blank_spec s → Forall whitespace (Split s comma).
Proof.
  induction 1 as [|s _ IH|r s Hr _ IH].
  - repeat constructor.
  - rewrite Split_sep. constructor; [constructor|done].
  - destruct (Split_app r s comma) as (t & ts & E1 & E2).
    { intros Hc. by destruct (space_rune_bytes r comma Hr Hc). }
    rewrite E2. rewrite E1 in IH. apply Forall_cons in IH as [Ht Hts].
    constructor; [by constructor|done].
Qed.

(** ** Facts about the resolver *)

Section resolver_facts.

Implicit Types (set ps : gset Z) (t p : bytes) (toks : list bytes).

Lemma elem_of_add_range set a b x :
  x ∈ add_range set a b ↔ (a ≤ x ≤ b) ∨ x ∈ set.
Proof.
  unfold add_range.
  assert (Hfold : ∀ (l : list Z) (acc : gset Z), x ∈ foldl (λ acc i, {[ i ]} ∪ acc) acc l ↔ x ∈ l ∨ x ∈ acc).
  { induction l as [|y l IH]; intros acc; simpl.
    - rewrite elem_of_nil. tauto.
    - rewrite IH, elem_of_cons, elem_of_union, elem_of_singleton. tauto. }
  rewrite Hfold, elem_of_seqZ. intuition lia.
Qed.

Lemma add_range_union set a b : add_range set a b = add_range ∅ a b ∪ set.
Proof.
  apply set_eq. intros x.
  rewrite elem_of_union, !elem_of_add_range, elem_of_empty. tauto.
Qed.

(** A token contributes the same ports, or fails with the same error,
    whatever the set collected so far. *)
Lemma parse_token_union set t :
  parse_token set t =
  match parse_token ∅ t with
  | inl e => inl e
  | inr ps => inr (ps ∪ set)
  end.
Proof.
  unfold parse_token.
  repeat case_match; try done; f_equal.
  - set_solver.
  - apply add_range_union.
  - set_solver.
Qed.

Lemma parse_tokens_union set toks :
  parse_tokens set toks =
  match parse_tokens ∅ toks with
  | inl e => inl e
  | inr ps => inr (ps ∪ set)
  end.
Proof.
  revert set. induction toks as [|t toks IH]; intros set; simpl.
  - f_equal. set_solver.
  - rewrite (parse_token_union set t).
    destruct (parse_token ∅ t) as [e|ps]; [done|].
    rewrite (IH (ps ∪ set)), (IH ps).
    destruct (parse_tokens ∅ toks) as [e|qs]; [done|].
    f_equal. set_solver.
Qed.

Lemma parse_tokens_app set toks1 toks2 :
  parse_tokens set (toks1 ++ toks2) =
  match parse_tokens set toks1 with
  | inl e => inl e
  | inr set' => parse_tokens set' toks2
  end.
Proof.
  revert set. induction toks1 as [|t toks1 IH]; intros set; simpl; [done|].
  destruct (parse_token set t); [done|]. apply IH.
Qed.

Lemma parse_tokens_perm toks toks' :
  toks ≡ₚ toks' →
  ∀ set r, parse_tokens set toks = inr r → parse_tokens set toks' = inr r.
Proof.
  induction 1 as [|t l l' _ IH|t1 t2 l|l1 l2 l3 _ IH1 _ IH2]; intros set r; simpl.
  - done.
  - destruct (parse_token set t); [done|]. apply IH.
  - destruct (parse_token ∅ t1) as [e1|p1] eqn:E1;
      destruct (parse_token ∅ t2) as [e2|p2] eqn:E2;
      rewrite (parse_token_union set t1), (parse_token_union set t2), E1, E2;
      simpl; try done.
    + by rewrite (parse_token_union _ t1), E1.
    + rewrite (parse_token_union _ t1), (parse_token_union _ t2), E1, E2.
      by replace (p1 ∪ (p2 ∪ set)) with (p2 ∪ (p1 ∪ set)) by set_solver.
  - intros H1. by apply IH2, IH1.
Qed.

(** The result of a successful [parsePorts] is the sorted listing of the
    set built by the loop. *)
Lemma parsePorts_inr spec l :
  parsePorts spec = inr l ↔
  ∃ set, parse_tokens ∅ (Split spec comma) = inr set ∧ l = sortInts (elements set).
Proof.
  unfold parsePorts. destruct (parse_tokens _ _) as [e|set]; split.
  - done.
  - by intros (? & ? & ?).
  - intros [= <-]. eauto.
  - by intros (? & [= <-] & ->).
Qed.

Lemma sortInts_perm l : sortInts l ≡ₚ l.
Proof. apply merge_sort_Permutation. Qed.

Lemma sortInts_sorted l : Sorted Z.le (sortInts l).
Proof. apply (Sorted_merge_sort Z.le). Qed.

(** Two listings of the same elements sort to the same slice. *)
Lemma sortInts_unique l1 l2 : l1 ≡ₚ l2 → sortInts l1 = sortInts l2.
Proof.
  intros Hp. apply (Sorted_unique Z.le); auto using sortInts_sorted.
  by rewrite !sortInts_perm.
Qed.

Lemma sortInts_id l : Sorted Z.le l → sortInts l = l.
Proof.
  intros Hs. apply (Sorted_unique Z.le); auto using sortInts_sorted, sortInts_perm.
Qed.

Lemma sortInts_NoDup l : NoDup l → StronglySorted Z.lt (sortInts l).
Proof.
  intros Hnd.
  assert (Hnd' : NoDup (sortInts l)) by by rewrite sortInts_perm.
  assert (Hs : StronglySorted Z.le (sortInts l)).
  { apply Sorted_StronglySorted; [apply _|apply sortInts_sorted]. }
  induction Hs as [|x k Hs IH Hx]; constructor.
  - apply IH. by apply NoDup_cons in Hnd' as [_ ?].
  - apply NoDup_cons in Hnd' as [Hx' _].
    rewrite Forall_forall in Hx |- *. intros y Hy.
    specialize (Hx y Hy). assert (x ≠ y) by (intros ->; done). lia.
Qed.

Lemma seqZ_sorted a n : Sorted Z.le (seqZ a n).
Proof.
  assert (Hk : ∀ (k : nat) a, Sorted Z.le (seqZ a (Z.of_nat k))).
  { clear. induction k as [|k IH]; intros a.
    - rewrite seqZ_nil by lia. constructor.
    - rewrite seqZ_cons by lia.
      replace (Z.pred (Z.of_nat (S k))) with (Z.of_nat k) by lia.
      constructor; [apply IH|].
      destruct k as [|k]; [rewrite seqZ_nil by lia; constructor|].
      rewrite seqZ_cons by lia. constructor. lia. }
  destruct (decide (n ≤ 0)) as [Hn|Hn].
  - rewrite seqZ_nil by done. constructor.
  - rewrite <- (Z2Nat.id n) by lia. apply Hk.
Qed.

(** The listing of a set that holds exactly the range [a..b]. *)
Lemma sortInts_elements_range a b :
  sortInts (elements (add_range ∅ a b)) = seqZ a (b - a + 1).
Proof.
  apply (Sorted_unique Z.le); auto using sortInts_sorted, seqZ_sorted.
  rewrite sortInts_perm.
  apply NoDup_Permutation.
  - apply NoDup_elements.
  - apply NoDup_seqZ.
  - intros x.
    rewrite elem_of_elements, elem_of_add_range, elem_of_seqZ, elem_of_empty.
    lia.
Qed.

Lemma parse_token_blank set t : TrimSpace t = [] → parse_token set t = inr set.
Proof. intros E. unfold parse_token. by rewrite E. Qed.

Lemma parse_tokens_blank set toks :
  Forall whitespace toks → parse_tokens set toks = inr set.
Proof.
  induction 1 as [|t toks Ht _ IH]; simpl; [done|].
  by rewrite parse_token_blank by by apply TrimSpace_whitespace.
Qed.

(** What one successful iteration adds to the set. *)
Lemma parse_token_elem set t set' x :
  parse_token set t = inr set' → x ∈ set' ↔ x ∈ set ∨ token_has t x.
Proof.
  unfold parse_token, token_has, token_literal, token_range.
  destruct (decide (TrimSpace t = [])) as [|Hne].
  { intros [= <-]. naive_solver. }
  destruct (Contains (TrimSpace t) dash).
  - destruct (SplitN2 (TrimSpace t) dash) as [|b0 [|b1 [|]]]; try done.
    destruct (Atoi (TrimSpace b0)) as [a|]; [|done].
    destruct (Atoi (TrimSpace b1)) as [b|]; [|done]. simpl.
    case_match; [done|]. intros [= <-].
    rewrite elem_of_add_range. naive_solver.
  - destruct (Atoi (TrimSpace t)) as [n|]; [|done].
    case_match; [done|]. intros [= <-].
    rewrite elem_of_union, elem_of_singleton. naive_solver.
Qed.

Lemma parse_tokens_elem toks set set' x :
  parse_tokens set toks = inr set' →
  x ∈ set' ↔ x ∈ set ∨ ∃ t, t ∈ toks ∧ token_has t x.
Proof.
  revert set. induction toks as [|t toks IH]; intros set; simpl.
  - intros [= <-]. set_solver.
  - destruct (parse_token set t) as [e|set1] eqn:E; [done|].
    intros H. rewrite (IH _ H), (parse_token_elem _ _ _ x E).
    setoid_rewrite elem_of_cons. naive_solver.
Qed.

(** The ports of a successful resolution are those named by the tokens. *)
Lemma parsePorts_elem spec l x :
  parsePorts spec = inr l →
  x ∈ l ↔ ∃ t, t ∈ Split spec comma ∧ token_has t x.
Proof.
  intros (set & Hset & ->)%parsePorts_inr.
  rewrite sortInts_perm, elem_of_elements, (parse_tokens_elem _ _ _ x Hset).
  set_solver.
Qed.

(** The result is strictly ascending. *)
Lemma parsePorts_sorted spec l : parsePorts spec = inr l → StronglySorted Z.lt l.
Proof.
  intros (set & Hset & ->)%parsePorts_inr.
  apply sortInts_NoDup, NoDup_elements.
Qed.

Lemma StronglySorted_lt_NoDup l : StronglySorted Z.lt l → NoDup l.
Proof.
  induction 1 as [|x l _ IH Hx]; constructor; [|done].
  intros Hin. rewrite Forall_forall in Hx. specialize (Hx _ Hin). lia.
Qed.

(** The first token that fails decides the error of the whole call. *)
Lemma parsePorts_first_error spec pre t post set e :
  Split spec comma = pre ++ t :: post →
  parse_tokens ∅ pre = inr set →
  parse_token set t = inl e →
  parsePorts spec = inl e.
Proof.
  intros Hs Hpre Ht. unfold parsePorts.
  by rewrite Hs, parse_tokens_app, Hpre; simpl; rewrite Ht.
Qed.

Lemma parse_token_range_ok set t a b :
  token_range t = Some (a, b) → 1 ≤ a ≤ b ≤ 65535 →
  parse_token set t = inr (add_range set a b).
Proof.
  unfold token_range, parse_token. intros H Hab.
  repeat case_match; simplify_eq/=; try done; lia.
Qed.

Lemma parse_token_literal_ok set t n :
  token_literal t = Some n → 1 ≤ n ≤ 65535 →
  parse_token set t = inr ({[ n ]} ∪ set).
Proof.
  unfold token_literal, parse_token. intros H Hn.
  repeat case_match; simplify_eq/=; try done; lia.
Qed.

Lemma Split_no_sep s sep : sep ∉ s → Split s sep = [s].
Proof.
  intros Hs. destruct (Split_app s [] sep Hs) as (t & ts & E1 & E2).
  simpl in E1. simplify_eq. by rewrite !app_nil_r in E2.
Qed.

(** A decimal numeral beyond the range of [int] is an error of [Atoi]. *)
Lemma Atoi_overflow s n :
  Forall is_digit s → digits 0 s = Some n → maxInt < n → Atoi s = None.
Proof.
  intros Hs Hn Hmax. unfold Atoi. destruct s as [|c r]; [done|].
  apply Forall_cons in Hs as [[d Hd] _].
  assert (bool_decide (c = dash) = false) as ->.
  { apply bool_decide_eq_false. intros ->. by vm_compute in Hd. }
  assert (bool_decide (c = plus) = false) as ->.
  { apply bool_decide_eq_false. intros ->. by vm_compute in Hd. }
  simpl orb. cbv iota. rewrite Hn. simpl.
  destruct (Z.leb_spec n maxInt); [lia|]. by rewrite andb_false_r.
Qed.

Lemma Atoi_nonempty s v : Atoi s = Some v → s ≠ [].
Proof. by destruct s. Qed.

(** The two bounds of a range token may be surrounded by white space. *)
Lemma token_range_padded w1 w2 w3 w4 da db a b :
  whitespace w1 → whitespace w2 → whitespace w3 → whitespace w4 →
  Forall is_digit da → Forall is_digit db →
  Atoi da = Some a → Atoi db = Some b →
  token_range (w1 ++ da ++ w2 ++ dash :: w3 ++ db ++ w4) = Some (a, b).
Proof.
  intros Hw1 Hw2 Hw3 Hw4 Hda Hdb Ha Hb.
  assert (Hhead : ∀ d, Forall is_digit d → d ≠ [] →
            ∃ c, head d = Some c ∧ numeric_byte c = true).
  { intros [|c d] Hd ?; [done|]. apply Forall_cons in Hd as [? _].
    exists c. auto using numeric_byte_digit. }
  assert (Hlast : ∀ d, Forall is_digit d → d ≠ [] →
            ∃ c, last d = Some c ∧ numeric_byte c = true).
  { intros d Hd Hne. destruct (last d) as [c|] eqn:E.
    - exists c. split; [done|]. apply numeric_byte_digit.
      rewrite Forall_forall in Hd. apply Hd.
      apply last_Some in E as [d' ->]. set_solver.
    - apply last_None in E. done. }
  pose proof (Atoi_nonempty _ _ Ha) as Hda0.
  pose proof (Atoi_nonempty _ _ Hb) as Hdb0.
  destruct (Hhead _ Hda Hda0) as (ca & Hca & Hnca).
  destruct (Hlast _ Hdb Hdb0) as (cb & Hcb & Hncb).
  set (X := da ++ w2 ++ dash :: w3 ++ db).
  assert (HX : TrimSpace (w1 ++ da ++ w2 ++ dash :: w3 ++ db ++ w4) = X).
  { replace (w1 ++ da ++ w2 ++ dash :: w3 ++ db ++ w4) with (w1 ++ X ++ w4).
    2:{ unfold X. by rewrite <- !app_assoc, <- !app_comm_cons, <- !app_assoc. }
    apply TrimSpace_pad; try done.
    - exists ca. split; [|done]. unfold X. by destruct da.
    - exists cb. split; [|done]. unfold X.
      apply last_Some in Hcb as [db' ->].
      rewrite !app_assoc, <- (app_assoc _ db' [cb]), app_comm_cons, !app_assoc.
      apply last_snoc. }
  assert (Hnodash : dash ∉ da ++ w2).
  { intros [Hd|Hd]%elem_of_app.
    - rewrite Forall_forall in Hda. destruct (Hda _ Hd) as [? Hdd].
      by vm_compute in Hdd.
    - by destruct (whitespace_bytes _ _ Hw2 Hd) as [Hnb _]. }
  unfold token_range. rewrite HX.
  rewrite decide_False by (unfold X; by destruct da).
  assert (Contains X dash = true) as ->.
  { apply bool_decide_eq_true. unfold X. set_solver. }
  unfold SplitN2.
  replace X with ((da ++ w2) ++ dash :: w3 ++ db) by (unfold X; by rewrite <- app_assoc).
  rewrite cut_app by done.
  assert (TrimSpace (da ++ w2) = da) as ->.
  { apply (TrimSpace_pad [] da w2); eauto. constructor. }
  assert (TrimSpace (w3 ++ db) = db) as ->.
  { rewrite <- (app_nil_r db) at 1. apply (TrimSpace_pad w3 db []); eauto. constructor. }
  by rewrite Ha, Hb.
Qed.

Lemma sortInts_nil : sortInts [] = [].
Proof. done. Qed.

Lemma parse_tokens_single set t : parse_tokens set [t] = parse_token set t.
Proof. simpl. by destruct (parse_token set t). Qed.

(** A specification made of one valid range token. *)
Lemma parsePorts_single_range t a b :
  Split t comma = [t] → token_range t = Some (a, b) → 1 ≤ a ≤ b ≤ 65535 →
  parsePorts t = inr (seqZ a (b - a + 1)).
Proof.
  intros Hs Ht Hab. unfold parsePorts.
  rewrite Hs, parse_tokens_single, (parse_token_range_ok _ _ _ _ Ht Hab).
  by rewrite sortInts_elements_range.
Qed.

End resolver_facts.

(** ** The resolver: statements of the specification *)

(** C5. [parsePorts] does not depend on the order of the tokens and
    collapses overlaps: two valid specifications whose comma-separated
    tokens are permutations of each other resolve to the same slice; the
    slice is strictly ascending; a port named both by a single-port token
    and by a range token that covers it occurs exactly once; and the three
    examples of the specification evaluate as stated. *)
Theorem parsePorts_order_independent :
  (∀ spec spec' l,
     parsePorts spec = inr l →
     Split spec comma ≡ₚ Split spec' comma →
     parsePorts spec' = inr l) ∧
  (∀ spec l, parsePorts spec = inr l → StronglySorted Z.lt l) ∧
  (∀ spec l t1 t2 n a b,
     parsePorts spec = inr l →
     t1 ∈ Split spec comma → token_literal t1 = Some n →
     t2 ∈ Split spec comma → token_range t2 = Some (a, b) →
     a ≤ n ≤ b →
     count_occ Z.eq_dec l n = 1%nat) ∧
  parsePorts (go "443,80") = inr [80; 443] ∧
  parsePorts (go "80,443") = inr [80; 443] ∧
  parsePorts (go "20-22,21") = inr [20; 21; 22].
Proof.
  split; [|split; [|split; [|by vm_compute]]].
  - intros spec spec' l (set & Hset & ->)%parsePorts_inr Hperm.
    apply parsePorts_inr. exists set. split; [|done].
    by apply (parse_tokens_perm _ _ Hperm).
  - apply parsePorts_sorted.
  - intros spec l t1 t2 n a b Hl Ht1 Hn _ _ _.
    apply NoDup_count_occ'.
    + apply NoDup_ListNoDup, StronglySorted_lt_NoDup. eauto using parsePorts_sorted.
    + apply list_elem_of_In, (parsePorts_elem _ _ _ Hl).
      exists t1. split; [done|]. by left.
Qed.

Lemma parsePorts_order_independent_witness :
  parsePorts (go "21,20-22, 443") = inr [20; 21; 22; 443] ∧
  count_occ Z.eq_dec [20; 21; 22; 443] 21 = 1%nat.
Proof.
  destruct parsePorts_order_independent as (Hperm & _ & Hcount & _).
  assert (H0 : parsePorts (go "20-22,21, 443") = inr [20; 21; 22; 443])
    by by vm_compute.
  split.
  - apply (Hperm (go "20-22,21, 443")); [exact H0|].
    vm_compute. apply perm_swap.
  - apply (Hcount (go "20-22,21, 443") _ (go "21") (go "20-22") 21 20 22);
      [exact H0| | | | |lia]; try (by vm_compute).
    + vm_compute. apply list_elem_of_In. simpl. tauto.
    + vm_compute. apply list_elem_of_In. simpl. tauto.
Defined.

(** C6, the statement of the specification refuted: the token
    [99999999999999999999] is a single token of decimal digits whose value
    lies outside [1,65535], and [parsePorts] fails on it with "invalid
    port", not with "port out of range". *)
Lemma parsePorts_huge_literal_invalid_port :
  let t := go "99999999999999999999" in
  Forall is_digit t ∧
  digits 0 t = Some 99999999999999999999 ∧
  ¬ (1 ≤ 99999999999999999999 ≤ 65535) ∧
  parsePorts t = inl (InvalidPort t) ∧
  ∀ n, parsePorts t ≠ inl (PortOutOfRange n).
Proof.
  repeat split.
  - apply (bool_decide_unpack _). by vm_compute.
  - lia.
  - by vm_compute.
Qed.

(** C6, amended. The error of [parsePorts] is the error of the first token
    that fails, and it follows the shape of that token [t], trimmed to [p]:
    - with a dash in [p], the two sides [b0], [b1] of the first dash are
      trimmed and given to [Atoi]; if [Atoi] refuses one (not a number, or a
      numeral beyond the range of [int]) the error is "invalid port" with
      that side; if both are accepted and a bound is outside [1,65535] or
      the bounds are inverted, the error is "invalid range bounds"; else
      every integer between the bounds enters the set, hence the result;
    - without a dash, the error is "invalid port" if [Atoi] refuses [p] and
      "port out of range" if the accepted value is outside [1,65535];
    - [Atoi] refuses every decimal numeral above the largest [int]. *)
Theorem parsePorts_error_kinds spec pre t post set :
  Split spec comma = pre ++ t :: post →
  parse_tokens ∅ pre = inr set →
  TrimSpace t ≠ [] →
  let p := TrimSpace t in
  (Contains p dash = true →
   ∃ b0 b1, SplitN2 p dash = [b0; b1] ∧
     (Atoi (TrimSpace b0) = None → parsePorts spec = inl (InvalidPort b0)) ∧
     (is_Some (Atoi (TrimSpace b0)) → Atoi (TrimSpace b1) = None →
      parsePorts spec = inl (InvalidPort b1)) ∧
     (∀ a b, Atoi (TrimSpace b0) = Some a → Atoi (TrimSpace b1) = Some b →
        (a < 1 ∨ b < 1 ∨ 65535 < a ∨ 65535 < b ∨ b < a →
         parsePorts spec = inl (InvalidRange p)) ∧
        (1 ≤ a ≤ b ≤ 65535 →
         parse_token set t = inr (add_range set a b) ∧
         ∀ l x, parsePorts spec = inr l → a ≤ x ≤ b → x ∈ l))) ∧
  (Contains p dash = false →
     (Atoi p = None → parsePorts spec = inl (InvalidPort p)) ∧
     (∀ n, Atoi p = Some n → n < 1 ∨ 65535 < n →
        parsePorts spec = inl (PortOutOfRange n))) ∧
  (∀ s n, Forall is_digit s → digits 0 s = Some n → maxInt < n → Atoi s = None).
Proof.
  intros Hs Hpre Hne p.
  assert (Herr : ∀ e, parse_token set t = inl e → parsePorts spec = inl e).
  { intros e. by apply parsePorts_first_error with pre post. }
  split; [|split; [|apply Atoi_overflow]].
  - intros Hdash.
    assert (∃ b0 b1, SplitN2 p dash = [b0; b1]) as (b0 & b1 & Hcut).
    { unfold SplitN2. destruct (cut p dash) as [[??]|] eqn:E; [eauto|].
      exfalso. apply bool_decide_eq_true in Hdash. clear -Hdash E.
      induction p as [|c p' IH]; [by apply elem_of_nil in Hdash|].
      simpl in E. case_decide; [done|].
      destruct (cut p' dash) as [[??]|]; [done|].
      apply IH; [|done]. set_solver. }
    exists b0, b1. split; [done|].
    split; [|split].
    + intros Hb0. apply Herr. unfold parse_token. fold p.
      by rewrite decide_False, Hdash, Hcut, Hb0.
    + intros [a Ha] Hb1. apply Herr. unfold parse_token. fold p.
      by rewrite decide_False, Hdash, Hcut, Ha, Hb1.
    + intros a b Ha Hb. split.
      * intros Hbad. apply Herr. unfold parse_token. fold p.
        rewrite decide_False, Hdash, Hcut, Ha, Hb by done.
        case_match eqn:Hc; [done|].
        rewrite !orb_false_iff, !Z.ltb_ge in Hc. lia.
      * intros Hok.
        assert (Hr : token_range t = Some (a, b)).
        { unfold token_range. fold p.
          by rewrite decide_False, Hdash, Hcut, Ha, Hb. }
        split; [by apply parse_token_range_ok|].
        intros l x Hl Hx. apply (parsePorts_elem _ _ _ Hl).
        exists t. split; [rewrite Hs; set_solver|]. right. eauto.
  - intros Hdash. split.
    + intros Hp. apply Herr. unfold parse_token. fold p.
      by rewrite decide_False, Hdash, Hp.
    + intros n Hp Hn. apply Herr. unfold parse_token. fold p.
      rewrite decide_False, Hdash, Hp by done.
      case_match eqn:Hc; [done|].
      rewrite !orb_false_iff, !Z.ltb_ge in Hc. lia.
Qed.

Lemma parsePorts_error_kinds_witness :
  parsePorts (go "80, 7-x ,9") = inl (InvalidPort (go "x")) ∧
  parsePorts (go "80,70000") = inl (PortOutOfRange 70000).
Proof.
  split.
  - destruct (parsePorts_error_kinds (go "80, 7-x ,9")
                [go "80"] (go " 7-x ") [go "9"] {[ 80 ]})
      as [Hrange _]; [by vm_compute..|].
    destruct Hrange as (b0 & b1 & Hcut & _ & Hb1 & _); [by vm_compute|].
    vm_compute in Hcut. injection Hcut as <- <-.
    apply Hb1; [by eexists|by vm_compute].
  - destruct (parsePorts_error_kinds (go "80,70000")
                [go "80"] (go "70000") [] {[ 80 ]})
      as (_ & Hsingle & _); [by vm_compute..|].
    destruct Hsingle as [_ Hout]; [by vm_compute|].
    apply Hout; [by vm_compute|lia].
Defined.

(** C7. The boundaries: ["1-65535"] resolves to the 65535 ports
    1, 2, ..., 65535; ["0"] and ["65536"] fail with "port out of range";
    ["5-3"] fails with "invalid range bounds". *)
Theorem parsePorts_boundaries :
  parsePorts (go "1-65535") = inr (seqZ 1 65535) ∧
  Z.of_nat (length (seqZ 1 65535)) = 65535 ∧
  parsePorts (go "0") = inl (PortOutOfRange 0) ∧
  parsePorts (go "65536") = inl (PortOutOfRange 65536) ∧
  parsePorts (go "5-3") = inl (InvalidRange (go "5-3")).
Proof.
  split; [|split].
  - rewrite (parsePorts_single_range (go "1-65535") 1 65535);
      [|by vm_compute|by vm_compute|lia].
    replace (65535 - 1 + 1) with 65535 by lia. reflexivity.
  - rewrite length_seqZ. lia.
  - by vm_compute.
Qed.

(** C9. A specification that is empty or made of white space and commas
    only resolves to the empty slice without an error; [main], once the
    host and the worker count have passed their checks, then prints
    "no ports to scan" and leaves with exit code 0 before any channel or
    goroutine exists. *)
Theorem parsePorts_blank spec :
  blank_spec spec →
  parsePorts spec = inr [] ∧
  ∀ f, portsFlag f = spec → hostFlag f ≠ [] → 1 ≤ workersFlag f ≤ 10000 →
       main_startup f = Exit 0 [Line "no ports to scan"].
Proof.
  intros Hb.
  assert (Hp : parsePorts spec = inr []).
  { unfold parsePorts.
    rewrite parse_tokens_blank by by apply Split_blank.
    by rewrite elements_empty. }
  split; [done|].
  intros f <- Hhost Hw. unfold main_startup.
  rewrite decide_False by done.
  destruct (Z.leb_spec (workersFlag f) 0); [lia|].
  destruct (Z.ltb_spec 10000 (workersFlag f)); [lia|].
  by rewrite Hp.
Qed.

Lemma parsePorts_blank_witness :
  parsePorts (go " ,, ") = inr [] ∧
  main_startup {| hostFlag := go "localhost"; portsFlag := go " ,, ";
                  workersFlag := 100; timeoutFlag := 500 |}
  = Exit 0 [Line "no ports to scan"].
Proof.
  assert (Hb : blank_spec (go " ,, ")).
  { apply (blank_space (go " ")); [by apply (bool_decide_unpack _)|].
    do 2 apply blank_comma.
    apply (blank_space (go " ") []); [by apply (bool_decide_unpack _)|].
    constructor. }
  destruct (parsePorts_blank _ Hb) as [Hp Hmain].
  split; [exact Hp|].
  apply Hmain; [reflexivity|discriminate|simpl; lia].
Defined.

(** C10. Inside a range token the white space around each bound is trimmed
    before the bound is parsed: two decimal numerals, each surrounded by
    any white space, on the two sides of a dash resolve to the ports between
    them, as does ["80 - 90"]; a token without a dash is trimmed as a whole
    only, so that a white-space rune left inside it makes the call fail
    with "invalid port". *)
Theorem parsePorts_range_bounds_trimmed :
  (∀ w1 w2 w3 w4 da db a b,
     whitespace w1 → whitespace w2 → whitespace w3 → whitespace w4 →
     Forall is_digit da → Forall is_digit db →
     Atoi da = Some a → Atoi db = Some b → 1 ≤ a ≤ b ≤ 65535 →
     parsePorts (w1 ++ da ++ w2 ++ dash :: w3 ++ db ++ w4)
     = inr (seqZ a (b - a + 1))) ∧
  parsePorts (go "80 - 90") = inr (seqZ 80 11) ∧
  (∀ spec pre t post set x r y,
     Split spec comma = pre ++ t :: post →
     parse_tokens ∅ pre = inr set →
     Contains (TrimSpace t) dash = false →
     TrimSpace t = x ++ r ++ y → r ∈ space_runes →
     parsePorts spec = inl (InvalidPort (TrimSpace t))).
Proof.
  split; [|split; [by vm_compute|]].
  - intros w1 w2 w3 w4 da db a b Hw1 Hw2 Hw3 Hw4 Hda Hdb Ha Hb Hab.
    apply parsePorts_single_range; [|by apply token_range_padded|done].
    apply Split_no_sep.
    assert (Hd : ∀ d, Forall is_digit d → comma ∉ d).
    { intros d Hd Hc. rewrite Forall_forall in Hd.
      destruct (Hd _ Hc) as [? Hcd]. by vm_compute in Hcd. }
    assert (Hw : ∀ w, whitespace w → comma ∉ w).
    { intros w Hw Hc. by destruct (whitespace_bytes _ _ Hw Hc). }
    intros Hc.
    repeat (apply elem_of_app in Hc as [Hc|Hc] || apply elem_of_cons in Hc as [Hc|Hc]);
      first [exact (Hd _ Hda Hc)|exact (Hd _ Hdb Hc)|exact (Hw _ Hw1 Hc)
            |exact (Hw _ Hw2 Hc)|exact (Hw _ Hw3 Hc)|exact (Hw _ Hw4 Hc)
            |by vm_compute in Hc].
  - intros spec pre t post set x r y Hs Hpre Hdash Hx Hr.
    apply parsePorts_first_error with pre t post set; [done..|].
    unfold parse_token. rewrite Hdash.
    rewrite decide_False.
    2:{ rewrite Hx. destruct r; [by destruct space_runes_nonempty|].
        by destruct x. }
    assert (Atoi (TrimSpace t) = None) as ->; [|done].
    rewrite Hx. by apply Atoi_space.
Qed.

Lemma parsePorts_range_bounds_trimmed_witness :
  parsePorts (go "  8080 -	8082 ") = inr (seqZ 8080 (8082 - 8080 + 1)) ∧
  parsePorts (go "22, 8 0 ,443") = inl (InvalidPort (go "8 0")).
Proof.
  destruct parsePorts_range_bounds_trimmed as (Hpad & _ & Hin).
  assert (Hsp : go " " ∈ space_runes) by by apply (bool_decide_unpack _).
  assert (Htab : [byte 9] ∈ space_runes) by by apply (bool_decide_unpack _).
  split.
  - apply (Hpad (go "  ") (go " ") [byte 9] (go " ") (go "8080") (go "8082"));
      try (by vm_compute); try lia.
    + apply (runs_cons _ (go " ") (go " ")); [done|].
      apply (runs_cons _ (go " ") []); [done|constructor].
    + apply (runs_cons _ (go " ") []); [done|constructor].
    + apply (runs_cons _ [byte 9] []); [done|constructor].
    + apply (runs_cons _ (go " ") []); [done|constructor].
    + apply (bool_decide_unpack _). by vm_compute.
    + apply (bool_decide_unpack _). by vm_compute.
  - apply (Hin (go "22, 8 0 ,443") [go "22"] (go " 8 0 ") [go "443"] {[ 22 ]}
               (go "8") (go " ") (go "0")); by vm_compute || exact Hsp.
Defined.

(** ** Facts about the engine *)

Section worker_lists.

Context {B : Type} (g : worker_pc → list B).
Implicit Types (ws : list worker_pc) (w : worker_pc) (k : nat).

(** The contribution of the worker [k] apart from that of the others. *)
Lemma bind_lookup ws k w :
  ws !! k = Some w → ws ≫= g ≡ₚ g w ++ (delete k ws ≫= g).
Proof.
  revert k. induction ws as [|w0 ws IH]; intros [|k] Hk; simplify_eq/=.
  - done.
  - rewrite (IH _ Hk). solve_Permutation.
Qed.

Lemma bind_insert ws k w w' :
  ws !! k = Some w → <[k:=w']> ws ≫= g ≡ₚ g w' ++ (delete k ws ≫= g).
Proof.
  revert k. induction ws as [|w0 ws IH]; intros [|k] Hk; simplify_eq/=.
  - done.
  - rewrite (IH _ Hk). solve_Permutation.
Qed.

Lemma bind_insert_length ws k w w' :
  ws !! k = Some w →
  (length (<[k:=w']> ws ≫= g) + length (g w) = length (ws ≫= g) + length (g w'))%nat.
Proof.
  intros Hk. rewrite (bind_lookup _ _ _ Hk), (bind_insert _ _ _ w' Hk).
  rewrite !length_app. lia.
Qed.

Lemma bind_snoc ws w : (ws ++ [w]) ≫= g = (ws ≫= g) ++ g w.
Proof. rewrite bind_app. simpl. by rewrite app_nil_r. Qed.

End worker_lists.

Lemma elem_of_insert_inv {A} (l : list A) k x y :
  y ∈ <[k:=x]> l → y = x ∨ y ∈ l.
Proof.
  revert k. induction l as [|a l IH]; intros [|k]; simpl; try by right.
  - rewrite !elem_of_cons. tauto.
  - rewrite !elem_of_cons. intros [->|H]; [tauto|]. destruct (IH _ H); tauto.
Qed.

Lemma live_lookup ws k w :
  ws !! k = Some w → w ≠ WExit → 0 < live ws.
Proof.
  intros Hk Hw. unfold live. rewrite (bind_lookup live_of _ _ _ Hk), length_app.
  destruct w; simpl; try lia. done.
Qed.

Lemma live_insert ws k w w' :
  ws !! k = Some w →
  live (<[k:=w']> ws) =
  live ws - Z.of_nat (length (live_of w)) + Z.of_nat (length (live_of w')).
Proof.
  intros Hk. unfold live.
  rewrite (bind_lookup live_of _ _ _ Hk), (bind_insert live_of _ _ _ w' Hk).
  rewrite !length_app. lia.
Qed.

Lemma live_snoc ws : live (ws ++ [WRecv]) = live ws + 1.
Proof. unfold live. rewrite bind_snoc, length_app. simpl. lia. Qed.

(** With no worker left, no port is held by a worker. *)
Lemma live_zero ws :
  live ws = 0 → Forall (λ w, w = WExit) ws ∧ inflight ws = [] ∧ sending ws = [].
Proof.
  unfold live, inflight, sending.
  induction ws as [|w ws IH]; simpl; [done|].
  rewrite length_app. intros H.
  destruct w; simpl in *; try lia.
  destruct (IH H) as (? & ? & ?). by repeat split; [constructor|..].
Qed.

Lemma live_nonzero ws :
  live ws ≠ 0 → ∃ k w, ws !! k = Some w ∧ w ≠ WExit.
Proof.
  unfold live. induction ws as [|w ws IH]; simpl; [done|].
  destruct (decide (w = WExit)) as [->|Hw].
  - simpl. intros (k & w' & ? & ?)%IH. by exists (S k), w'.
  - intros _. by exists 0%nat, w.
Qed.

Section engine_facts.

Variable f : Flags.
Variable ports : list Z.
Variable dial : Z → bool.

(** The check of line 112 has passed. *)
Hypothesis workers_positive : 1 ≤ workersFlag f.

Local Abbreviation inv := (Inv f ports dial).
Local Abbreviation nworkers := (numWorkers f ports).
Local Abbreviation step' := (step f ports dial).
Local Abbreviation run' := (run f ports dial).
Local Abbreviation measure' := (measure f ports).

Lemma numWorkers_min : nworkers = Z.min (workersFlag f) (Z.of_nat (length ports)).
Proof. unfold numWorkers. case_match eqn:E; [apply Z.ltb_lt in E|apply Z.ltb_ge in E]; lia. Qed.

Lemma Inv_init : inv (init f).
Proof.
  pose proof numWorkers_min.
  constructor; simpl; try done; try lia.
  by intros ?%elem_of_nil.
Qed.

Ltac inv_fields H :=
  destruct H as [Hpan Hpc Hrc Hrb [Hsp1 Hsp2] Hws Hwg Hco Hdi Hdn Hex Hjobs Hres Hso Hbd];
  unfold todo in Hjobs.

(** Closes the fields of the invariant that a step leaves alone or changes
    by arithmetic only. *)
Ltac inv_cases :=
  try match goal with
      | H : context [coord ?s] |- _ =>
          destruct (coord s) as [[| |]|]; simpl in *; by naive_solver lia
      end;
  try match goal with
      | H : context [dist ?s] |- _ =>
          destruct (dist s) as [[|]|]; simpl in *; by naive_solver lia
      end.

Ltac inv_solve :=
  try done; try lia; try (intros _; apply sortInts_sorted);
  try lazymatch goal with
      | |- _ ∧ _ => inv_cases
      | |- match _ with _ => _ end => inv_cases
      end.

Lemma step_main_Inv s s' : inv s → step_main f ports s = Some s' → inv s'.
Proof.
  intros HI. inv_fields HI. unfold step_main.
  destruct (mainpc s) as [i|i| | | |] eqn:Hm; simpl in *.
  - destruct (Z.ltb_spec i nworkers); intros [= <-];
      constructor; unfold todo; simpl; inv_solve.
  - intros [= <-]. constructor; unfold todo; simpl; inv_solve.
    + rewrite length_app. simpl. lia.
    + rewrite live_snoc. lia.
    + intros [?|?%list_elem_of_singleton]%elem_of_app; [auto|done].
    + unfold inflight. by rewrite bind_snoc, app_nil_r.
    + unfold sending. by rewrite bind_snoc, app_nil_r.
  - intros [= <-]. constructor; unfold todo; simpl; inv_solve.
  - intros [= <-]. constructor; unfold todo; simpl; inv_solve.
    destruct (dist s) as [[|]|]; simpl in *; intuition congruence.
  - rewrite Hrb. destruct (closed (resultsCh s)) eqn:Hcl; [|done].
    intros [= <-]. constructor; unfold todo; simpl; inv_solve.
    + by rewrite sortInts_perm.
  - done.
Qed.

Lemma step_coord_Inv s s' : inv s → step_coord s = Some s' → inv s'.
Proof.
  intros HI. inv_fields HI. unfold step_coord, panic.
  destruct (coord s) as [[| |]|] eqn:Hc; simpl in *; try done.
  - destruct (wg s =? 0) eqn:Hz; [apply Z.eqb_eq in Hz|done].
    intros [= <-]. constructor; unfold todo; simpl; rewrite ?Hc; inv_solve.
  - destruct Hco as (? & -> & ?).
    intros [= <-]. constructor; unfold todo; simpl; rewrite ?Hc; inv_solve.
Qed.

Lemma step_dist_Inv s s' : inv s → step_dist s = Some s' → inv s'.
Proof.
  intros HI. inv_fields HI. unfold step_dist, panic.
  destruct (dist s) as [[[|p rest]|]|] eqn:Hd; simpl in *; try done.
  - destruct Hdi as [? Hcl]. rewrite Hcl.
    intros [= <-]. constructor; unfold todo; simpl; rewrite ?Hd; inv_solve.
    intros Hin. destruct (Hex Hin). congruence.
  - destruct Hdi as [? Hcl]. rewrite Hcl.
    destruct (_ <? _) eqn:Hlt; [|done].
    intros [= <-]. constructor; unfold todo; simpl; rewrite ?Hd; inv_solve.
    + intros Hin. destruct (Hex Hin). congruence.
    + rewrite <- Hjobs. solve_Permutation.
    + apply Z.ltb_lt in Hlt. rewrite length_app. simpl. lia.
Qed.

(** The fields of the invariant after the worker [k] has moved. *)
Ltac worker_solve Hk :=
  first
    [ rewrite length_insert; done
    | match goal with |- _ ≤ _ => simpl in *; lia end
    | rewrite (live_insert _ _ _ _ Hk); simpl in *; lia
    | let Hin := fresh "Hin" in
      intros [?|Hin]%elem_of_insert_inv;
        [done
        |match goal with
         | Hex : WExit ∈ _ → _ |- _ => destruct (Hex Hin) as [? ?]; by simplify_eq/=
         end]
    | match goal with
      | Hjobs : _ ≡ₚ ports |- _ ≡ₚ ports =>
          unfold inflight in *;
          rewrite (bind_insert job_of _ _ _ _ Hk);
          rewrite (bind_lookup job_of _ _ _ Hk) in Hjobs;
          simpl in *; rewrite <- Hjobs; solve_Permutation
      | Hres : _ ≡ₚ filter _ _ |- _ ≡ₚ _ =>
          unfold sending in *;
          rewrite (bind_insert result_of _ _ _ _ Hk);
          rewrite (bind_lookup result_of _ _ _ Hk) in Hres;
          simpl in *; rewrite <- Hres; solve_Permutation
      end ].

Lemma step_worker_Inv k s s' : inv s → step_worker dial k s = Some s' → inv s'.
Proof.
  intros HI. inv_fields HI. unfold step_worker, panic.
  destruct (workers s !! k) as [[|p|p|]|] eqn:Hk; simpl in *; try done.
  - (* receive *)
    pose proof (live_lookup _ _ _ Hk ltac:(done)) as Hlive.
    destruct (buf (portsCh s)) as [|p b] eqn:Hb.
    + destruct (closed (portsCh s)) eqn:Hcl; [|done].
      destruct (wg s - 1 <? 0) eqn:Hneg;
        [apply Z.ltb_lt in Hneg|apply Z.ltb_ge in Hneg]; intros [= <-].
      { destruct (mainpc s); simpl in *; lia. }
      constructor; unfold todo; simpl; rewrite ?Hb; inv_solve;
        try worker_solve Hk.
      + intros [= <-].
      constructor; unfold todo; simpl; rewrite ?Hb; inv_solve;
        try worker_solve Hk.
    - (* dial *)
    intros [= <-].
    destruct (dial p) eqn:Hdp;
      constructor; unfold todo; simpl; inv_solve;
      rewrite ?filter_app, ?filter_cons, ?filter_nil;
      rewrite ?decide_True by done; rewrite ?decide_False by congruence;
      try worker_solve Hk.
  - (* send *)
    pose proof (live_lookup _ _ _ Hk ltac:(done)) as Hlive.
    destruct (closed (resultsCh s)) eqn:Hcl.
    { intros _. exfalso.
      destruct (coord s) as [[]|], (mainpc s); simpl in *;
        intuition (try congruence; try lia). }
    rewrite Hrb, Hrc. simpl.
    destruct (mainpc s) eqn:Hm; try done. intros [= <-].
    constructor; unfold todo; simpl; rewrite ?Hm; inv_solve;
      try worker_solve Hk.
Qed.

Lemma step_Inv g s s' : inv s → step' g s = Some s' → inv s'.
Proof.
  intros HI. unfold step. destruct (panicked s); [done|].
  destruct (mainpc s) eqn:Hm; try done; destruct g;
    eauto using step_main_Inv, step_worker_Inv, step_coord_Inv, step_dist_Inv.
Qed.

Lemma run_Inv sched s s' : inv s → run' sched s = Some s' → inv s'.
Proof.
  revert s. induction sched as [|g sched IH]; intros s HI; simpl.
  - by intros [= <-].
  - destruct (step' g s) as [s1|] eqn:E; [|done]. simpl.
    apply IH. eauto using step_Inv.
Qed.

Lemma reachable_Inv s : reachable f ports dial s → inv s.
Proof. intros [sched Hrun]. eapply run_Inv; [apply Inv_init|done]. Qed.

Lemma run_app sched1 sched2 s :
  run' (sched1 ++ sched2) s = run' sched1 s ≫= run' sched2.
Proof.
  revert s. induction sched1 as [|g sched1 IH]; intros s; simpl; [done|].
  destruct (step' g s); simpl; [apply IH|done].
Qed.

(** Every step uses up some of the measure. *)
Lemma step_measure g s s' :
  inv s → step' g s = Some s' → (measure' s' < measure' s)%nat.
Proof.
  intros HI. inv_fields HI. unfold step. rewrite Hpan.
  destruct g as [|k| |].
  - (* main *)
    unfold step_main.
    destruct (mainpc s) as [i|i| | | |] eqn:Hm; simpl in *; try done.
    + destruct (Z.ltb_spec i nworkers); intros [= <-];
        unfold measure, todo; simpl; rewrite Hm; simpl; lia.
    + intros [= <-]. unfold measure, todo, inflight, sending; simpl.
      rewrite Hm, !bind_snoc, !length_app; simpl. lia.
    + intros [= <-]. unfold measure, todo; simpl; rewrite Hm.
      destruct (coord s) as [[]|]; simpl in *; try lia; naive_solver.
    + intros [= <-]. unfold measure, todo; simpl; rewrite Hm.
      destruct (dist s) as [[]|]; simpl in *; try lia; naive_solver.
    + rewrite Hrb. destruct (closed (resultsCh s)); [|done].
      intros [= <-]. unfold measure, todo; simpl; rewrite Hm. simpl. lia.
  - (* worker *)
    assert (mainpc s ≠ MDone → step_worker dial k s = Some s' →
            (measure' s' < measure' s)%nat) as Hgoal.
    2:{ destruct (mainpc s); try done; by apply Hgoal. }
    intros _. unfold step_worker, panic.
    destruct (workers s !! k) as [w|] eqn:Hk; [|done].
    pose proof (λ w', bind_insert_length live_of _ _ _ w' Hk) as Hl1.
    pose proof (λ w', bind_insert_length job_of _ _ _ w' Hk) as Hl2.
    pose proof (λ w', bind_insert_length result_of _ _ _ w' Hk) as Hl3.
    destruct w as [|p|p|]; simpl in *; try done.
    + destruct (buf (portsCh s)) as [|p b] eqn:Hb.
      * destruct (closed (portsCh s)); [|done].
        destruct (wg s - 1 <? 0) eqn:Hneg; intros [= <-].
        { apply Z.ltb_lt in Hneg.
          pose proof (live_lookup _ _ _ Hk ltac:(done)).
          destruct (mainpc s); simpl in *; lia. }
        specialize (Hl1 WExit). specialize (Hl2 WExit).
        specialize (Hl3 WExit).
        unfold measure, todo, inflight, sending; simpl.
        rewrite length_insert, Hb. simpl in *. lia.
      * intros [= <-].
        specialize (Hl1 (WDial p)). specialize (Hl2 (WDial p)).
        specialize (Hl3 (WDial p)).
        unfold measure, todo, inflight, sending; simpl.
        rewrite length_insert, Hb. simpl in *. lia.
    + intros [= <-].
      specialize (Hl1 (if dial p then WSend p else WRecv)).
      specialize (Hl2 (if dial p then WSend p else WRecv)).
      specialize (Hl3 (if dial p then WSend p else WRecv)).
      unfold measure, todo, inflight, sending; simpl.
      rewrite length_insert. destruct (dial p); simpl in *; lia.
    + destruct (closed (resultsCh s)) eqn:Hcl.
      { intros _. exfalso.
        pose proof (live_lookup _ _ _ Hk ltac:(done)).
        destruct (coord s) as [[]|], (mainpc s); simpl in *;
          intuition (try congruence; try lia). }
      rewrite Hrb, Hrc. simpl.
      destruct (mainpc s) eqn:Hm; try done. intros [= <-].
      specialize (Hl1 WRecv). specialize (Hl2 WRecv).
      specialize (Hl3 WRecv).
      unfold measure, todo, inflight, sending; simpl.
      rewrite length_insert, Hm. simpl in *. lia.
  - (* coordinator *)
    assert (step_coord s = Some s' → (measure' s' < measure' s)%nat) as Hgoal.
    2:{ destruct (mainpc s); try done; by apply Hgoal. }
    unfold step_coord, panic.
    destruct (coord s) as [[| |]|] eqn:Hc; simpl in *; try done.
    + destruct (wg s =? 0); [|done]. intros [= <-].
      unfold measure, todo; simpl. rewrite Hc. simpl. lia.
    + destruct Hco as (? & -> & ?). intros [= <-].
      unfold measure, todo; simpl. rewrite Hc. simpl. lia.
  - (* distributor *)
    assert (step_dist s = Some s' → (measure' s' < measure' s)%nat) as Hgoal.
    2:{ destruct (mainpc s); try done; by apply Hgoal. }
    unfold step_dist, panic.
    destruct (dist s) as [[[|p rest]|]|] eqn:Hd; simpl in *; try done.
    + destruct Hdi as [? ->]. intros [= <-].
      unfold measure, todo; simpl. rewrite Hd. simpl. lia.
    + destruct Hdi as [? ->]. destruct (_ <? _); [|done]. intros [= <-].
      unfold measure, todo; simpl. rewrite Hd, length_app. simpl. lia.
Qed.

(** No deadlock: as long as [main] has not returned, some goroutine can
    take a step. *)
Lemma progress s : inv s → mainpc s ≠ MDone → ∃ g s', step' g s = Some s'.
Proof.
  intros HI Hnd. inv_fields HI. unfold step. rewrite Hpan.
  destruct (mainpc s) as [i|i| | | |] eqn:Hm; try done.
  - exists GMain. unfold step_main. rewrite Hm. destruct (i <? _); by eexists.
  - exists GMain. unfold step_main. rewrite Hm. by eexists.
  - exists GMain. unfold step_main. rewrite Hm. by eexists.
  - exists GMain. unfold step_main. rewrite Hm. by eexists.
  - simpl in *.
    destruct (closed (resultsCh s)) eqn:Hcl.
    { exists GMain. unfold step_main. rewrite Hm, Hrb, Hcl. by eexists. }
    destruct (coord s) as [[| |]|] eqn:Hc; try (by destruct Hco as (? & ? & ?)).
    2:{ exists GCoord. unfold step_coord. rewrite Hc, Hcl. by eexists. }
    2:{ by destruct Hco. }
    destruct (decide (wg s = 0)) as [Hz|Hz].
    { exists GCoord. unfold step_coord. rewrite Hc, Hz. simpl. by eexists. }
    destruct (live_nonzero (workers s)) as (k & w & Hk & Hw); [lia|].
    destruct w as [|p|p|]; try done.
    + destruct (buf (portsCh s)) as [|p b] eqn:Hb.
      * destruct (closed (portsCh s)) eqn:Hclp.
        { exists (GWorker k). unfold step_worker. rewrite Hk, Hb, Hclp.
          pose proof (live_lookup _ _ _ Hk ltac:(done)).
          destruct (Z.ltb_spec (wg s - 1) 0); [lia|by eexists]. }
        exists GDist. unfold step_dist.
        destruct (dist s) as [[[|p rest]|]|]; simpl in *.
        -- rewrite Hclp.  by eexists.
        -- rewrite Hclp, Hb, Hpc. simpl length.
           rewrite (proj2 (Z.ltb_lt _ _)) by (simpl; lia). by eexists.
        -- by destruct Hdi.
        -- by destruct Hdi.
      * exists (GWorker k). unfold step_worker. rewrite Hk, Hb. by eexists.
    + exists (GWorker k). unfold step_worker. rewrite Hk. by eexists.
    + exists (GWorker k). unfold step_worker.
      rewrite Hk, Hcl, Hrb, Hrc, Hm. simpl. by eexists.
Qed.

(** Termination: from every state that satisfies the invariant some
    schedule leads to the return of [main], and no schedule is longer than
    the measure. *)
Lemma can_finish s : inv s → ∃ sched s', run' sched s = Some s' ∧ mainpc s' = MDone.
Proof.
  assert (∀ n s, (measure' s < n)%nat → inv s →
                 ∃ sched s', run' sched s = Some s' ∧ mainpc s' = MDone) as H.
  { clear s. induction n as [|n IH]; intros s Hn HI; [lia|].
    destruct (decide (mainpc s = MDone)) as [Hd|Hd].
    { by exists [], s. }
    destruct (progress s HI Hd) as (g & s1 & Hstep).
    pose proof (step_measure _ _ _ HI Hstep).
    destruct (IH s1) as (sched & s' & Hrun & Hdone);
      [lia|by eapply step_Inv|].
    exists (g :: sched), s'. simpl. by rewrite Hstep. }
  eauto.
Qed.

Lemma run_length sched s s' :
  inv s → run' sched s = Some s' → (length sched + measure' s' ≤ measure' s)%nat.
Proof.
  revert s. induction sched as [|g sched IH]; intros s HI; simpl.
  - intros [= <-]. lia.
  - destruct (step' g s) as [s1|] eqn:E; [|done]. simpl. intros Hrun.
    pose proof (step_measure _ _ _ HI E).
    pose proof (IH s1 (step_Inv _ _ _ HI E) Hrun). lia.
Qed.

(** A run that cannot be extended has ended with the return of [main]. *)
Lemma stuck_done s :
  inv s → (∀ g, step' g s = None) → mainpc s = MDone.
Proof.
  intros HI Hstuck. destruct (decide (mainpc s = MDone)) as [|Hd]; [done|].
  destruct (progress s HI Hd) as (g & s1 & Hstep). by rewrite Hstuck in Hstep.
Qed.

Lemma measure_init :
  measure' (init f) = (3 * Z.to_nat nworkers + 4 * length ports + 7)%nat.
Proof. unfold measure, todo. simpl. lia. Qed.

(** When [main] has returned, every worker has returned and both channels
    are closed and empty. *)
Lemma done_workers s :
  inv s → mainpc s = MDone →
  Z.of_nat (length (workers s)) = nworkers ∧
  Forall (λ w, w = WExit) (workers s) ∧
  closed (resultsCh s) = true.
Proof.
  intros HI Hm. inv_fields HI. rewrite Hm in *. simpl in *.
  specialize (Hdn eq_refl).
  assert (Hz : wg s = 0).
  { destruct (coord s) as [[]|]; simpl in *; intuition congruence. }
  destruct (live_zero (workers s)) as (? & ? & ?); [lia|]. done.
Qed.

Lemma done_dialed s :
  inv s → mainpc s = MDone → ports ≠ [] → dialed s ≡ₚ ports.
Proof.
  intros HI Hm Hne.
  destruct (done_workers s HI Hm) as (Hlen & Hall & _).
  inv_fields HI. rewrite Hm in *. simpl in *.
  assert (Hn : 1 ≤ nworkers).
  { rewrite numWorkers_min. destruct ports; [done|]. simpl length. lia. }
  assert (Hin : WExit ∈ workers s).
  { destruct (workers s) as [|w ws]; [simpl in Hlen; lia|].
    apply Forall_cons in Hall as [-> _]. left. }
  destruct (Hex Hin) as [Hcl Hb].
  specialize (Hdn eq_refl).
  assert (Hz : wg s = 0).
  { destruct (coord s) as [[]|]; simpl in *; intuition congruence. }
  destruct (live_zero (workers s)) as (_ & Hfl & _); [lia|].
  rewrite Hfl, Hb in Hjobs.
  destruct (dist s) as [[|]|]; try (destruct Hdi as [? ?]; congruence).
  by rewrite !app_nil_r in Hjobs.
Qed.

(** The slice [open] that the report prints. *)
Lemma done_open s :
  inv s → mainpc s = MDone → ports ≠ [] →
  open s = sortInts (filter (λ p, dial p = true) ports).
Proof.
  intros HI Hm Hne.
  pose proof (done_dialed s HI Hm Hne) as Hd.
  inv_fields HI. rewrite Hm in *. simpl in *.
  specialize (Hdn eq_refl).
  assert (Hz : wg s = 0).
  { destruct (coord s) as [[]|]; simpl in *; intuition congruence. }
  destruct (live_zero (workers s)) as (_ & _ & Hsd); [lia|].
  rewrite Hsd, app_nil_r in Hres.
  apply (Sorted_unique Z.le); auto using sortInts_sorted.
  by rewrite sortInts_perm, Hres, Hd.
Qed.

End engine_facts.

(** ** The engine: statements of the specification *)

(** C1, the statement of the specification refuted: with 100 workers
    requested for two ports, the effective worker count is 2 while the
    job channel is made with capacity 100. *)
Lemma jobs_capacity_not_effective_count :
  let f := example_flags 100 in
  let ports := [80; 443] in
  numWorkers f ports = Z.min (workersFlag f) (Z.of_nat (length ports)) ∧
  numWorkers f ports = 2 ∧
  cap (portsCh (init f)) = 100 ∧
  cap (portsCh (init f)) ≠ numWorkers f ports.
Proof. by vm_compute. Qed.

(** C1, amended. When the engine starts, the job channel is made buffered
    with the requested worker count as its capacity (the count is clamped
    only afterwards, for the number of workers), and the result channel is
    made unbuffered. The two capacities never change and the result channel
    never holds a value. The capacity of the job channel is the effective
    worker count exactly when the requested count is at most the number of
    ports; for a larger request it is the requested count, above the
    effective one. *)
Theorem channels_at_start f ports dial :
  1 ≤ workersFlag f →
  portsCh (init f) = make_chan (workersFlag f) ∧
  resultsCh (init f) = make_chan 0 ∧
  (workersFlag f ≤ Z.of_nat (length ports) →
   cap (portsCh (init f)) = numWorkers f ports) ∧
  (Z.of_nat (length ports) < workersFlag f →
   numWorkers f ports = Z.of_nat (length ports) ∧
   cap (portsCh (init f)) = workersFlag f ∧
   cap (portsCh (init f)) ≠ numWorkers f ports) ∧
  (∀ sched s,
     run f ports dial sched (init f) = Some s →
     cap (portsCh s) = workersFlag f ∧
     Z.of_nat (length (buf (portsCh s))) ≤ cap (portsCh s) ∧
     cap (resultsCh s) = 0 ∧ buf (resultsCh s) = []).
Proof.
  intros Hw. pose proof (numWorkers_min f ports) as Hn.
  split; [done|]. split; [done|]. simpl.
  split; [lia|]. split; [lia|].
  intros sched s Hrun.
  assert (HI : Inv f ports dial s) by (apply reachable_Inv; [done|by exists sched]).
  destruct HI. auto.
Qed.

Lemma channels_at_start_witness :
  cap (portsCh (init (example_flags 100))) = 100 ∧
  numWorkers (example_flags 100) example_ports = 3 ∧
  cap (resultsCh (init (example_flags 100))) = 0.
Proof.
  destruct (channels_at_start (example_flags 100) example_ports example_dial)
    as (Hp & Hr & _ & Hmore & _); [simpl; lia|].
  destruct Hmore as (Hn & Hc & _); [simpl; lia|].
  split; [exact Hc|]. split; [exact Hn|]. by rewrite Hr.
Defined.

(** C2. For a non-empty set of ports, at least one requested worker, and
    a dial that succeeds exactly on the ports of a subset [S]: the engine
    can always run to the return of [main], and whatever the interleaving
    of the goroutines, the slice of open ports it prints is the ascending
    sort of [S]; the worker count does not occur in the result. *)
Theorem scan_returns_sorted_open_ports f ports dial S :
  ports ≠ [] → NoDup ports → 1 ≤ workersFlag f →
  NoDup S → (∀ p, p ∈ S ↔ p ∈ ports ∧ dial p = true) →
  (∃ sched s, run f ports dial sched (init f) = Some s ∧ mainpc s = MDone) ∧
  (∀ sched s,
     run f ports dial sched (init f) = Some s → mainpc s = MDone →
     open s = sortInts S ∧
     rep_open <$> report_of f ports s = Some (sortInts S)).
Proof.
  intros Hne Hnd Hw HS Hdial. split.
  - apply can_finish; [done|]. by apply Inv_init.
  - intros sched s Hrun Hdone.
    assert (HI : Inv f ports dial s) by (apply reachable_Inv; [done|by exists sched]).
    assert (Hopen : open s = sortInts S).
    { rewrite (done_open f ports dial Hw s HI Hdone Hne).
      apply sortInts_unique, NoDup_Permutation; [by apply NoDup_filter|done|].
      intros p. rewrite list_elem_of_filter, Hdial. tauto. }
    split; [done|]. unfold report_of. rewrite Hdone. simpl. by rewrite Hopen.
Qed.

Lemma scan_returns_sorted_open_ports_witness :
  ∃ s, run (example_flags 2) example_ports example_dial (example_schedule 2)
           (init (example_flags 2)) = Some s ∧
       open s = [443].
Proof.
  eexists. split; [by vm_compute|].
  destruct (scan_returns_sorted_open_ports
              (example_flags 2) example_ports example_dial [443])
    as [_ Hall].
  - discriminate.
  - apply (bool_decide_unpack _). by vm_compute.
  - simpl. lia.
  - apply (bool_decide_unpack _). by vm_compute.
  - intros p. unfold example_dial, example_ports.
    rewrite bool_decide_eq_true, list_elem_of_singleton, !elem_of_cons.
    split; [intros ->; auto|tauto].
  - apply (Hall (example_schedule 2)); by vm_compute.
Defined.

(** C3. For a non-empty set of [K] distinct ports and at least one
    requested worker (in particular for every count between 1 and [K]):
    at every moment of every run no port has been dialed twice and only
    ports of the set have been dialed; the engine can always run to the
    return of [main]; and when [main] has returned exactly [K] dials have
    been made, one for each port of the set. *)
Theorem every_port_dialed_once f ports dial :
  ports ≠ [] → NoDup ports → 1 ≤ workersFlag f →
  (∃ sched s, run f ports dial sched (init f) = Some s ∧ mainpc s = MDone) ∧
  (∀ sched s,
     run f ports dial sched (init f) = Some s →
     NoDup (dialed s) ∧ dialed s ⊆ ports ∧
     (mainpc s = MDone →
      dialed s ≡ₚ ports ∧
      length (dialed s) = length ports ∧
      ∀ p, p ∈ ports → count_occ Z.eq_dec (dialed s) p = 1%nat)).
Proof.
  intros Hne Hnd Hw. split.
  - apply can_finish; [done|]. by apply Inv_init.
  - intros sched s Hrun.
    assert (HI : Inv f ports dial s) by (apply reachable_Inv; [done|by exists sched]).
    pose proof (inv_jobs _ _ _ _ HI) as Hjobs.
    assert (Hnd' : NoDup (dialed s)).
    { rewrite <- Hjobs in Hnd. by apply NoDup_app in Hnd as [? _]. }
    split; [done|]. split.
    { intros p Hp. rewrite <- Hjobs. set_solver. }
    intros Hdone.
    pose proof (done_dialed f ports dial Hw s HI Hdone Hne) as Hperm.
    split; [done|]. split; [by rewrite Hperm|].
    intros p Hp. apply NoDup_count_occ'; [by apply NoDup_ListNoDup|].
    apply list_elem_of_In. by rewrite Hperm.
Qed.

Lemma every_port_dialed_once_witness :
  ∃ s, run (example_flags 2) example_ports example_dial (example_schedule 2)
           (init (example_flags 2)) = Some s ∧
       length (dialed s) = 3%nat.
Proof.
  eexists. split; [by vm_compute|].
  destruct (every_port_dialed_once
              (example_flags 2) example_ports example_dial)
    as [_ Hall].
  - discriminate.
  - apply (bool_decide_unpack _). by vm_compute.
  - simpl. lia.
  - match goal with
    | |- length (dialed ?s) = _ =>
        destruct (Hall (example_schedule 2) s) as (_ & _ & Hdone);
          [by vm_compute|]
    end.
    by destruct Hdone as (_ & Hlen & _).
Defined.

(** C4. With at least one requested worker the engine terminates, whatever
    the dials answer (in particular when all of them time out) and whatever
    the interleaving: no run panics; no run takes more than
    [3 * numWorkers + 4 * K + 7] steps; as long as [main] has not returned
    some goroutine can take a step, so that every run extends to the return
    of [main]. The order of the shutdown is as stated:
    - the job channel is closed only after the last port has been sent:
      once it is closed the distributor has returned with nothing left to
      send, and every port of the set has been taken by a worker or is
      still buffered in the channel;
    - a worker returns only from a closed and drained job channel;
    - the result channel is closed only after all [numWorkers] workers
      have been started and have returned;
    - [main] leaves its loop only on the closed result channel, and for a
      non-empty port set the job channel is then closed and drained and
      every port has been dialed. *)
Theorem engine_terminates f ports dial :
  1 ≤ workersFlag f →
  ∀ sched s,
    run f ports dial sched (init f) = Some s →
    panicked s = false ∧
    Z.of_nat (length sched)
      ≤ 3 * numWorkers f ports + 4 * Z.of_nat (length ports) + 7 ∧
    (mainpc s ≠ MDone → ∃ g s', step f ports dial g s = Some s') ∧
    (∃ sched' s',
       run f ports dial (sched ++ sched') (init f) = Some s' ∧ mainpc s' = MDone) ∧
    (closed (portsCh s) = true →
     dist s = Some DDone ∧ todo ports s = [] ∧
     taken s ++ buf (portsCh s) ≡ₚ ports) ∧
    (closed (portsCh s) = false →
     ∀ w, w ∈ workers s → w ≠ WExit) ∧
    (WExit ∈ workers s → closed (portsCh s) = true ∧ buf (portsCh s) = []) ∧
    (closed (resultsCh s) = true →
     Z.of_nat (length (workers s)) = numWorkers f ports ∧
     Forall (λ w, w = WExit) (workers s)) ∧
    (mainpc s = MDone → closed (resultsCh s) = true) ∧
    (ports ≠ [] → mainpc s = MDone →
     closed (portsCh s) = true ∧ buf (portsCh s) = [] ∧ dialed s ≡ₚ ports).
Proof.
  intros Hw sched s Hrun.
  assert (HI : Inv f ports dial s) by (apply reachable_Inv; [done|by exists sched]).
  pose proof (numWorkers_min f ports) as Hn.
  split; [by destruct HI|]. split.
  { pose proof (run_length f ports dial sched _ _ (Inv_init f ports dial Hw) Hrun) as Hlen.
    rewrite measure_init in Hlen. lia. }
  split; [by apply progress|]. split.
  { destruct (can_finish f ports dial Hw s HI) as (sched' & s' & Hrun' & Hdone).
    exists sched', s'. split; [|done]. rewrite run_app, Hrun. done. }
  pose proof (done_dialed f ports dial Hw s HI) as Hdialed.
  pose proof (done_workers f ports dial s HI) as Hworkers.
  destruct HI as [Hpan Hpc Hrc Hrb [Hsp1 Hsp2] Hws Hwg Hco Hdi Hdn Hex Hjobs Hres Hso Hbd].
  assert (Hclosed : closed (portsCh s) = true → dist s = Some DDone).
  { intros Hcl. destruct (dist s) as [[|]|]; [|done|]; intuition congruence. }
  split.
  { intros Hcl. pose proof (Hclosed Hcl) as Hd. split; [done|].
    unfold todo in *. rewrite Hd in *. split; [done|].
    unfold taken. rewrite app_nil_r in Hjobs. by rewrite <- app_assoc. }
  split.
  { intros Hcl w Hin ->. destruct (Hex Hin). congruence. }
  split; [done|]. split.
  { intros Hcl.
    assert (before_coord (mainpc s) = false ∧ wg s = 0) as [Hb Hz].
    { destruct (coord s) as [[]|]; simpl in *; intuition congruence. }
    destruct (mainpc s); simpl in *; try done;
      (split; [done|]); by apply live_zero; lia. }
  split; [done|].
  intros Hne Hdone.
  destruct (Hworkers Hdone) as (Hlen & Hall & _).
  assert (Hin : WExit ∈ workers s).
  { destruct (workers s) as [|w ws].
    - destruct ports; [done|]. simpl in *. lia.
    - apply Forall_cons in Hall as [-> _]. left. }
  destruct (Hex Hin). auto.
Qed.

Lemma engine_terminates_witness :
  ∃ s, run (example_flags 2) example_ports refused_dial refused_schedule
           (init (example_flags 2)) = Some s ∧
       mainpc s = MDone ∧ open s = [] ∧
       panicked s = false ∧
       (closed (portsCh s) = true ∧ buf (portsCh s) = [] ∧
        dialed s ≡ₚ example_ports) ∧
       closed (resultsCh s) = true ∧
       Forall (λ w, w = WExit) (workers s).
Proof.
  eexists. split; [by vm_compute|].
  split; [by vm_compute|]. split; [by vm_compute|].
  match goal with
  | |- panicked ?s0 = false ∧ _ =>
      assert (Hw : 1 ≤ workersFlag (example_flags 2)) by (simpl; lia);
      assert (Hrun : run (example_flags 2) example_ports refused_dial
                         refused_schedule (init (example_flags 2)) = Some s0)
        by (by vm_compute);
      destruct (engine_terminates (example_flags 2) example_ports refused_dial
                  Hw refused_schedule s0 Hrun)
        as (Hpan & _ & _ & _ & _ & _ & _ & Hres & Hdone & Hjobs)
  end.
  split; [exact Hpan|].
  split; [apply Hjobs; [discriminate|by vm_compute]|].
  split; [apply Hdone; by vm_compute|].
  apply Hres, Hdone. by vm_compute.
Defined.

(** C8. With at least one requested worker, the effective worker count is
    the smaller of the requested count and the number [K] of ports, hence
    [K] for a request above [K]. No run has more workers than that; once
    [main] has left the loop of line 140 exactly that many workers have
    been started; and that is the count the report shows. *)
Theorem workers_clamped f ports dial :
  1 ≤ workersFlag f →
  numWorkers f ports = Z.min (workersFlag f) (Z.of_nat (length ports)) ∧
  (Z.of_nat (length ports) < workersFlag f →
   numWorkers f ports = Z.of_nat (length ports)) ∧
  (∀ sched s,
     run f ports dial sched (init f) = Some s →
     Z.of_nat (length (workers s)) ≤ numWorkers f ports ∧
     (before_coord (mainpc s) = false →
      Z.of_nat (length (workers s)) = numWorkers f ports) ∧
     (mainpc s = MDone →
      rep_workers <$> report_of f ports s
      = Some (Z.min (workersFlag f) (Z.of_nat (length ports))))).
Proof.
  intros Hw. pose proof (numWorkers_min f ports) as Hn.
  split; [done|]. split; [lia|].
  intros sched s Hrun.
  assert (HI : Inv f ports dial s) by (apply reachable_Inv; [done|by exists sched]).
  destruct HI as [_ _ _ _ [Hsp1 _] Hws _ _ _ _ _ _ _ _ _].
  split; [lia|]. split.
  - intros Hb. rewrite Hws. by destruct (mainpc s).
  - intros Hdone. unfold report_of. rewrite Hdone. simpl. by rewrite Hn.
Qed.

Lemma workers_clamped_witness :
  numWorkers (example_flags 100) example_ports = 3 ∧
  ∃ s, run (example_flags 100) example_ports example_dial (example_schedule 100)
           (init (example_flags 100)) = Some s ∧
       length (workers s) = 3%nat.
Proof.
  destruct (workers_clamped (example_flags 100) example_ports example_dial)
    as (_ & Hclamp & Hrun); [simpl; lia|].
  split; [apply Hclamp; simpl; lia|].
  eexists. split; [by vm_compute|].
  match goal with
  | |- length (workers ?s) = _ =>
      destruct (Hrun (example_schedule 100) s) as (_ & Hn & _);
        [by vm_compute|]
  end.
  apply Nat2Z.inj. rewrite Hn; done.
Defined.

(** ** Further properties of the resolver *)

Lemma Split_app_sep s1 s2 sep :
  Split (s1 ++ sep :: s2) sep = Split s1 sep ++ Split s2 sep.
Proof.
  induction s1 as [|c s1 IH]; simpl.
  - by rewrite decide_True.
  - case_decide; [by rewrite IH|].
    rewrite IH. destruct (Split s1 sep) as [|t ts] eqn:E; [|done].
    by destruct (Split_nonnil s1 sep).
Qed.

Lemma Contains_SplitN2 p sep :
  Contains p sep = true → ∃ b0 b1, SplitN2 p sep = [b0; b1] ∧ p = b0 ++ sep :: b1.
Proof.
  intros Hc%bool_decide_eq_true. unfold SplitN2.
  induction p as [|c p IH]; [by apply elem_of_nil in Hc|].
  simpl. case_decide as Hcs.
  - subst. by exists [], p.
  - destruct IH as (b0 & b1 & Hcut & ->); [set_solver|].
    destruct (cut (b0 ++ sep :: b1) sep) as [[a b]|]; simplify_eq/=.
    by exists (c :: b0), b1.
Qed.

Lemma parsePorts_inl spec e :
  parsePorts spec = inl e ↔ parse_tokens ∅ (Split spec comma) = inl e.
Proof.
  unfold parsePorts. destruct (parse_tokens _ _); split; congruence.
Qed.

Lemma parse_token_bounds set t set' x :
  parse_token set t = inr set' → x ∈ set' → x ∈ set ∨ 1 ≤ x ≤ 65535.
Proof.
  unfold parse_token.
  destruct (decide (TrimSpace t = [])) as [|Hne]; [intros [= <-]; auto|].
  destruct (Contains (TrimSpace t) dash).
  - destruct (SplitN2 (TrimSpace t) dash) as [|b0 [|b1 [|]]]; try done.
    destruct (Atoi (TrimSpace b0)) as [a|]; [|done].
    destruct (Atoi (TrimSpace b1)) as [b|]; [|done].
    case_match eqn:Hc; [done|]. intros [= <-].
    rewrite !orb_false_iff, !Z.ltb_ge in Hc.
    rewrite elem_of_add_range. intros [?|?]; [right; lia|by left].
  - destruct (Atoi (TrimSpace t)) as [n|]; [|done].
    case_match eqn:Hc; [done|]. intros [= <-].
    rewrite !orb_false_iff, !Z.ltb_ge in Hc.
    rewrite elem_of_union, elem_of_singleton. intros [->|?]; [right; lia|by left].
Qed.

Lemma parse_tokens_bounds toks set set' x :
  parse_tokens set toks = inr set' → x ∈ set' → x ∈ set ∨ 1 ≤ x ≤ 65535.
Proof.
  revert set. induction toks as [|t toks IH]; intros set; simpl.
  - intros [= <-]. auto.
  - destruct (parse_token set t) as [e|set1] eqn:E; [done|].
    intros H Hx. destruct (IH _ H Hx) as [Hx1|?]; [|by right].
    eapply parse_token_bounds; eauto.
Qed.

Lemma parse_token_not_syntax set t p : parse_token set t ≠ inl (InvalidRangeSyntax p).
Proof.
  unfold parse_token.
  destruct (decide (TrimSpace t = [])) as [|Hne]; [done|].
  destruct (Contains (TrimSpace t) dash) eqn:Hc.
  - destruct (Contains_SplitN2 _ _ Hc) as (b0 & b1 & -> & _).
    by repeat case_match.
  - by repeat case_match.
Qed.

Lemma parsePorts_inr_port_set spec l :
  parsePorts spec = inr l →
  Forall (λ p, 1 ≤ p ≤ 65535) l ∧
  StronglySorted Z.lt l ∧
  Z.of_nat (length l) ≤ 65535.
Proof.
  intros Hl.
  assert (Hrange : Forall (λ p, 1 ≤ p ≤ 65535) l).
  { apply parsePorts_inr in Hl as (set & Hset & ->).
    apply Forall_forall. intros x Hx.
    rewrite sortInts_perm, elem_of_elements in Hx.
    destruct (parse_tokens_bounds _ _ _ x Hset Hx) as [Hx'|?]; [|done].
    by apply elem_of_empty in Hx'. }
  pose proof (parsePorts_sorted _ _ Hl) as Hs.
  split; [done|]. split; [done|].
  assert (Hsub : l ⊆+ seqZ 1 65535).
  { apply NoDup_submseteq; [by apply StronglySorted_lt_NoDup|].
    intros x Hx. rewrite Forall_forall in Hrange.
    apply elem_of_seqZ. specialize (Hrange x Hx). lia. }
  apply submseteq_length in Hsub. rewrite length_seqZ in Hsub. lia.
Qed.

(** X1. A successful [parsePorts] returns a port set: every entry lies in
    [1,65535], the entries are strictly ascending (hence distinct), and
    there are at most 65535 of them. *)
Theorem parsePorts_port_set spec l :
  parsePorts spec = inr l →
  Forall (λ p, 1 ≤ p ≤ 65535) l ∧
  StronglySorted Z.lt l ∧
  Z.of_nat (length l) ≤ 65535.
Proof. apply parsePorts_inr_port_set. Qed.

Lemma parsePorts_port_set_witness :
  Forall (λ p, 1 ≤ p ≤ 65535) [22; 80; 81; 82] ∧
  StronglySorted Z.lt [22; 80; 81; 82] ∧
  Z.of_nat (length [22; 80; 81; 82]) ≤ 65535.
Proof. apply (parsePorts_port_set (go "80-82,22,81")). by vm_compute. Defined.

(** X2. The ports of a successful resolution are exactly those named by
    the tokens of the specification: a port is in the result if and only
    if some comma-separated token is that single port or is a range that
    covers it. *)
Theorem parsePorts_exact spec l x :
  parsePorts spec = inr l →
  x ∈ l ↔ ∃ t, t ∈ Split spec comma ∧ token_has t x.
Proof. apply parsePorts_elem. Qed.

Lemma parsePorts_exact_witness :
  81 ∈ [22; 80; 81; 82] ↔
  ∃ t, t ∈ Split (go "80-82,22") comma ∧ token_has t 81.
Proof. apply (parsePorts_exact (go "80-82,22")). by vm_compute. Defined.

(** X3. The error "invalid range: ..." of line 27 is never returned: a
    token that contains a dash always splits in two at its first dash. *)
Theorem parsePorts_never_range_syntax spec p :
  parsePorts spec ≠ inl (InvalidRangeSyntax p).
Proof.
  rewrite parsePorts_inl. generalize (∅ : gset Z).
  induction (Split spec comma) as [|t toks IH]; intros set; simpl; [done|].
  destruct (parse_token set t) as [e|set'] eqn:E; [|apply IH].
  intros [= ->]. by apply parse_token_not_syntax in E.
Qed.

Lemma parsePorts_never_range_syntax_witness :
  parsePorts (go "1-2-3") ≠ inl (InvalidRangeSyntax (go "1-2-3")).
Proof. apply parsePorts_never_range_syntax. Defined.

(** X4. Two specifications joined by a comma: an error of the first one is
    the error of the whole; if the first is valid, an error of the second
    is the error of the whole; and if both are valid, the whole is valid
    and resolves to the union of the two results. *)
Theorem parsePorts_comma s1 s2 :
  (∀ e, parsePorts s1 = inl e → parsePorts (s1 ++ comma :: s2) = inl e) ∧
  (∀ l1 e, parsePorts s1 = inr l1 → parsePorts s2 = inl e →
           parsePorts (s1 ++ comma :: s2) = inl e) ∧
  (∀ l1 l2, parsePorts s1 = inr l1 → parsePorts s2 = inr l2 →
            ∃ l, parsePorts (s1 ++ comma :: s2) = inr l ∧
                 ∀ x, x ∈ l ↔ x ∈ l1 ∨ x ∈ l2).
Proof.
  assert (Hall : parse_tokens ∅ (Split (s1 ++ comma :: s2) comma) =
                 match parse_tokens ∅ (Split s1 comma) with
                 | inl e => inl e
                 | inr set1 =>
                     match parse_tokens ∅ (Split s2 comma) with
                     | inl e => inl e
                     | inr set2 => inr (set2 ∪ set1)
                     end
                 end).
  { rewrite Split_app_sep, parse_tokens_app.
    destruct (parse_tokens ∅ (Split s1 comma)) as [e|set1]; [done|].
    apply parse_tokens_union. }
  split; [|split].
  - intros e He%parsePorts_inl. apply parsePorts_inl. by rewrite Hall, He.
  - intros l1 e (set1 & H1 & _)%parsePorts_inr He%parsePorts_inl.
    apply parsePorts_inl. by rewrite Hall, H1, He.
  - intros l1 l2 (set1 & H1 & ->)%parsePorts_inr (set2 & H2 & ->)%parsePorts_inr.
    exists (sortInts (elements (set2 ∪ set1))). split.
    + apply parsePorts_inr. exists (set2 ∪ set1). by rewrite Hall, H1, H2.
    + intros x. rewrite !sortInts_perm, !elem_of_elements. set_solver.
Qed.

Lemma parsePorts_comma_witness :
  ∃ l, parsePorts (go "80,443" ++ comma :: go "20-22") = inr l ∧
       ∀ x, x ∈ l ↔ x ∈ [80; 443] ∨ x ∈ [20; 21; 22].
Proof.
  destruct (parsePorts_comma (go "80,443") (go "20-22")) as (_ & _ & H).
  apply H; by vm_compute.
Defined.

(** X5. Blank tokens are skipped: a white-space token put before a
    specification or after it, separated by a comma, changes neither the
    result nor the error. *)
Theorem parsePorts_blank_token spec w :
  whitespace w →
  parsePorts (w ++ comma :: spec) = parsePorts spec ∧
  parsePorts (spec ++ comma :: w) = parsePorts spec.
Proof.
  intros Hw.
  assert (Hsplit : Split w comma = [w]).
  { apply Split_no_sep. intros Hc. by destruct (whitespace_bytes _ _ Hw Hc). }
  pose proof (TrimSpace_whitespace _ Hw) as Htrim.
  unfold parsePorts. rewrite !Split_app_sep, Hsplit. split.
  - simpl. by rewrite parse_token_blank.
  - rewrite parse_tokens_app.
    destruct (parse_tokens ∅ (Split spec comma)) as [e|set]; [done|].
    simpl. by rewrite parse_token_blank.
Qed.

Lemma parsePorts_blank_token_witness :
  parsePorts (go " " ++ comma :: go "80,x") = parsePorts (go "80,x") ∧
  parsePorts (go "80,x" ++ comma :: go " ") = parsePorts (go "80,x").
Proof.
  apply parsePorts_blank_token.
  apply (runs_cons _ (go " ") []); [|constructor].
  by apply (bool_decide_unpack _).
Defined.

(** X6. A token that starts with a dash (a negative number, for one) is
    taken for a range with an empty first bound: when it is the first
    token to fail, the error is "invalid port" with the empty text, never
    "port out of range". *)
Theorem parsePorts_leading_dash spec pre t post set r :
  Split spec comma = pre ++ t :: post →
  parse_tokens ∅ pre = inr set →
  TrimSpace t = dash :: r →
  parsePorts spec = inl (InvalidPort []).
Proof.
  intros Hs Hpre Ht.
  apply parsePorts_first_error with pre t post set; [done..|].
  unfold parse_token. rewrite Ht.
  destruct (decide (dash :: r = [])) as [|_]; [done|].
  assert (Contains (dash :: r) dash = true) as ->.
  { apply bool_decide_eq_true. left. }
  unfold SplitN2. simpl. by rewrite ?decide_True.
Qed.

Lemma parsePorts_leading_dash_witness :
  parsePorts (go "80, -5") = inl (InvalidPort []).
Proof.
  apply (parsePorts_leading_dash (go "80, -5") [go "80"] (go " -5") [] {[ 80 ]} (go "5"));
    by vm_compute.
Defined.

(** ** White space around a token *)

Lemma strip_runes_decompose runes n s :
  [] ∉ runes → (length s ≤ n)%nat →
  ∃ w, runs_of runes w ∧ s = w ++ strip_runes runes n s ∧
       strip_rune runes (strip_runes runes n s) = None.
Proof.
  intros Hne. revert s. induction n as [|n IH]; intros s Hlen; simpl.
  - destruct s; [|simpl in Hlen; lia].
    exists []. split; [constructor|]. split; [done|]. by apply strip_rune_nil.
  - destruct (strip_rune runes s) as [s'|] eqn:E.
    + pose proof (strip_rune_shorter runes Hne _ _ E).
      apply strip_rune_Some in E as (r & Hr & ->).
      destruct (IH s') as (w & Hw & Hs' & Hnone); [lia|].
      exists (r ++ w). split; [by constructor|].
      split; [|done]. rewrite <- app_assoc. by f_equal.
    + exists []. split; [constructor|]. done.
Qed.

Lemma strip_rune_app_whitespace t w :
  t ≠ [] → strip_rune space_runes t = None → whitespace w →
  strip_rune space_runes (t ++ w) = None.
Proof.
  intros Ht Hnone Hw.
  destruct (strip_rune space_runes (t ++ w)) as [rest|] eqn:E; [|done].
  exfalso. apply strip_rune_Some in E as (r & Hr & Heq).
  rewrite strip_rune_None in Hnone. specialize (Hnone r Hr).
  assert (Hcheck : rune_tails_checked = true) by by vm_compute.
  unfold rune_tails_checked in Hcheck. rewrite forallb_forall in Hcheck.
  specialize (Hcheck r (proj1 (list_elem_of_In _ _) Hr)).
  rewrite forallb_forall in Hcheck.
  (* [r] is not a prefix of [t]: [t] is a proper prefix of [r] *)
  assert (∃ c q, r = t ++ c :: q ∧ w = c :: q ++ rest) as (c & q & -> & ->).
  { clear Hcheck Hr Hw. revert r Hnone Heq.
    induction t as [|a t IH]; [done|]. intros [|b r] Hnone Heq; [done|].
    simpl in *. injection Heq as <- Heq. rewrite decide_True in Hnone by done.
    destruct t as [|a' t].
    - simpl in *. destruct r as [|c q]; [done|].
      exists c, q. split; [done|]. by simplify_eq/=.
    - destruct (IH ltac:(done) r Hnone Heq) as (c & q & -> & ->). by exists c, q. }
  inversion Hw as [|r2 w2 Hr2 Hw2 Hr2w]; subst.
  destruct r2 as [|c2 r2']; [by destruct space_runes_nonempty|].
  simpl in Hr2w. injection Hr2w as -> _.
  assert (Hc : In c (tail (t ++ c :: q))).
  { destruct t as [|a t]; [done|]. simpl. apply in_or_app. right. by left. }
  specialize (Hcheck c Hc). rewrite forallb_forall in Hcheck.
  specialize (Hcheck (c :: r2') (proj1 (list_elem_of_In _ _) Hr2)).
  simpl in Hcheck. by rewrite bool_decide_eq_true_2 in Hcheck.
Qed.

Lemma TrimSpace_padding w1 t w2 :
  whitespace w1 → whitespace w2 → TrimSpace (w1 ++ t ++ w2) = TrimSpace t.
Proof.
  intros Hw1 Hw2. unfold TrimSpace.
  rewrite TrimLeft_whitespace by done.
  destruct (strip_runes_decompose space_runes (length t) t)
    as (w & Hw & Ht & Hnone); [apply space_runes_nonempty|done|].
  fold (strip space_runes t) in Ht, Hnone. fold (TrimLeft t) in Ht, Hnone.
  destruct (TrimLeft t) as [|a t'] eqn:Et.
  - rewrite app_nil_r in Ht. subst w.
    rewrite <- (app_nil_r (t ++ w2)), TrimLeft_whitespace; [done|].
    by apply runs_of_app.
  - rewrite Ht at 1. rewrite <- app_assoc, TrimLeft_whitespace by done.
    assert (TrimLeft ((a :: t') ++ w2) = (a :: t') ++ w2) as ->.
    { apply strip_stop. by apply strip_rune_app_whitespace. }
    by apply TrimRight_whitespace.
Qed.

(** X14. White space around a token does not count: padding any one
    comma-separated token of a specification with white space on either
    side changes neither the result nor the error kind; a token that
    fails is reported with its trimmed text either way. *)
Theorem parsePorts_token_padding spec spec' pre t post w1 w2 :
  whitespace w1 → whitespace w2 →
  Split spec comma = pre ++ t :: post →
  Split spec' comma = pre ++ (w1 ++ t ++ w2) :: post →
  parsePorts spec' = parsePorts spec.
Proof.
  intros Hw1 Hw2 Hs Hs'. unfold parsePorts. rewrite Hs, Hs', !parse_tokens_app.
  destruct (parse_tokens ∅ pre) as [e|set]; [done|]. simpl.
  assert (parse_token set (w1 ++ t ++ w2) = parse_token set t) as ->; [|done].
  unfold parse_token. by rewrite TrimSpace_padding.
Qed.

Lemma parsePorts_token_padding_witness :
  parsePorts (go "22,  80-82 ,x") = parsePorts (go "22,80-82,x").
Proof.
  assert (Hsp : go " " ∈ space_runes) by by apply (bool_decide_unpack _).
  apply (parsePorts_token_padding (go "22,80-82,x") (go "22,  80-82 ,x")
           [go "22"] (go "80-82") [go "x"] (go "  ") (go " "));
    try (by vm_compute).
  - apply (runs_cons _ (go " ") (go " ")); [done|].
    apply (runs_cons _ (go " ") []); [done|constructor].
  - apply (runs_cons _ (go " ") []); [done|constructor].
Defined.

(** X15. A specification made of a single token: a port number within
    [1,65535] resolves to that port alone, and a range [a-b] with
    [1 ≤ a ≤ b ≤ 65535] to the ports from [a] to [b] in ascending
    order. *)
Theorem parsePorts_single_token t :
  comma ∉ t →
  (∀ n, token_literal t = Some n → 1 ≤ n ≤ 65535 → parsePorts t = inr [n]) ∧
  (∀ a b, token_range t = Some (a, b) → 1 ≤ a ≤ b ≤ 65535 →
          parsePorts t = inr (seqZ a (b - a + 1))).
Proof.
  intros Hc. pose proof (Split_no_sep _ _ Hc) as Hs. split.
  - intros n Hn Hr. unfold parsePorts.
    rewrite Hs, parse_tokens_single, (parse_token_literal_ok _ _ _ Hn Hr).
    f_equal. rewrite union_empty_r_L, elements_singleton. done.
  - intros a b Hab Hr. by apply parsePorts_single_range.
Qed.

Lemma parsePorts_single_token_witness :
  parsePorts (go " +0443 ") = inr [443] ∧
  parsePorts (go "8000-8002") = inr (seqZ 8000 (8002 - 8000 + 1)).
Proof.
  split.
  - destruct (parsePorts_single_token (go " +0443 ")) as [H _].
    + apply (bool_decide_unpack _). by vm_compute.
    + apply H; [by vm_compute|lia].
  - destruct (parsePorts_single_token (go "8000-8002")) as [_ H].
    + apply (bool_decide_unpack _). by vm_compute.
    + apply H; [by vm_compute|lia].
Defined.

(** ** Further properties of the start of [main] *)

(** X7. [main] goes on to the scan exactly when the host is not empty, the
    worker count lies in [1,10000] and the port specification resolves to
    a non-empty slice (the timeout flag is not checked); the ports given
    to the engine are then strictly ascending and within [1,65535]. *)
Theorem main_startup_scan f ports :
  (main_startup f = Scan ports ↔
   hostFlag f ≠ [] ∧ 1 ≤ workersFlag f ≤ 10000 ∧
   parsePorts (portsFlag f) = inr ports ∧ ports ≠ []) ∧
  (main_startup f = Scan ports →
   StronglySorted Z.lt ports ∧ Forall (λ p, 1 ≤ p ≤ 65535) ports).
Proof.
  assert (Hiff : main_startup f = Scan ports ↔
                 hostFlag f ≠ [] ∧ 1 ≤ workersFlag f ≤ 10000 ∧
                 parsePorts (portsFlag f) = inr ports ∧ ports ≠ []).
  { unfold main_startup.
    destruct (decide (hostFlag f = [])) as [Hh|Hh]; [naive_solver|].
    destruct (Z.leb_spec (workersFlag f) 0); [naive_solver lia|].
    destruct (Z.ltb_spec 10000 (workersFlag f)); [naive_solver lia|].
    destruct (parsePorts (portsFlag f)) as [e|l]; [naive_solver|].
    destruct (decide (length l = 0%nat)) as [Hl|Hl].
    - apply length_zero_iff_nil in Hl. naive_solver.
    - split.
      + intros [= <-]. repeat split; try done; try lia. by intros ->.
      + intros (_ & _ & [= <-] & _). done. }
  split; [done|].
  intros (_ & _ & Hp & _)%Hiff.
  destruct (parsePorts_inr_port_set _ _ Hp) as (? & ? & _). done.
Qed.

Lemma main_startup_scan_witness :
  StronglySorted Z.lt [80; 443] ∧ Forall (λ p, 1 ≤ p ≤ 65535) [80; 443].
Proof.
  apply (main_startup_scan
           {| hostFlag := go "h"; portsFlag := go "443,80"; workersFlag := 7;
              timeoutFlag := 0 |}).
  by vm_compute.
Defined.







(** ** Further properties of the engine *)

Lemma live_le_length ws : live ws ≤ Z.of_nat (length ws).
Proof.
  unfold live. apply inj_le.
  induction ws as [|w ws IH]; [done|].
  rewrite bind_cons, length_app. destruct w; simpl; lia.
Qed.

Lemma singleton_lookup (ws : list worker_pc) k w :
  Z.of_nat (length ws) ≤ 1 → ws !! k = Some w → ws = [w] ∧ k = 0%nat.
Proof.
  destruct ws as [|w0 [|w1 ws]]; simpl; try done; [|lia].
  destruct k; simpl; [naive_solver|done].
Qed.

Lemma filter_StronglySorted {A} (R : relation A) (P : A → Prop)
    `{∀ x, Decision (P x)} l :
  StronglySorted R l → StronglySorted R (filter P l).
Proof.
  induction 1 as [|x l _ IH Hx]; [constructor|].
  rewrite filter_cons. case_decide; [|done].
  constructor; [done|].
  rewrite Forall_forall in Hx |- *. intros y [_ Hy]%list_elem_of_filter. auto.
Qed.

Lemma StronglySorted_lt_Sorted_le l : StronglySorted Z.lt l → Sorted Z.le l.
Proof.
  induction 1 as [|x l _ IH Hx]; constructor; [done|].
  destruct l as [|y l]; constructor.
  apply Forall_cons in Hx as [? _]. lia.
Qed.

Section engine_extras.

Variable f : Flags.
Variable ports : list Z.
Variable dial : Z → bool.
Hypothesis workers_positive : 1 ≤ workersFlag f.

Local Abbreviation inv := (Inv f ports dial).
Local Abbreviation nworkers := (numWorkers f ports).

Local Abbreviation ordered := (ordered f ports).
Local Abbreviation step' := (step f ports dial).
Local Abbreviation run' := (run f ports dial).

Lemma ordered_init : ordered (init f).
Proof. exists []. split; [done|]. done. Qed.

Lemma step_ordered g s s' : inv s → step' g s = Some s' → ordered s → ordered s'.
Proof.
  intros HI Hstep (k & Hk & H1).
  assert (Hlen : nworkers = 1 → Z.of_nat (length (workers s)) ≤ 1).
  { destruct HI as [_ _ _ _ [? _] Hws _ _ _ _ _ _ _ _ _]. lia. }
  pose proof (inv_dist _ _ _ _ HI) as Hdi.
  unfold step in Hstep. destruct (panicked s); [done|].
  unfold ordered, todo, taken in *. revert Hstep.
  destruct g as [|i| |].
  - (* main *)
    intros Hm.
    assert (step_main f ports s = Some s') as Hm' by by destruct (mainpc s).
    clear Hm. revert Hm'. unfold step_main.
    destruct (mainpc s) as [j|j| | | |]; simpl in *; try done.
    + destruct (j <? nworkers); intros [= <-]; by exists k.
    + intros [= <-]. exists k. split; [done|]. intros Hn. simpl.
      unfold inflight. rewrite bind_snoc. simpl. rewrite app_nil_r. auto.
    + intros [= <-]. by exists k.
    + intros [= <-]. exists k. split; [|done]. simpl.
      destruct (dist s) as [[|]|]; simpl in *; [by destruct Hdi..|done].
    + destruct (buf (resultsCh s)); [|intros [= <-]; by exists k].
      destruct (closed (resultsCh s)); intros [= <-]. by exists k.
  - (* worker *)
    intros Hw.
    assert (step_worker dial i s = Some s') as Hw' by by destruct (mainpc s).
    clear Hw. revert Hw'. unfold step_worker, panic.
    destruct (workers s !! i) as [w|] eqn:Hi; [|done].
    assert (Hone : nworkers = 1 → workers s = [w] ∧ i = 0%nat).
    { intros Hn. apply singleton_lookup; auto. }
    destruct w as [|p|p|]; try done.
    + destruct (buf (portsCh s)) as [|p b] eqn:Hb.
      * destruct (closed (portsCh s)); [|done].
        destruct (wg s - 1 <? 0); intros [= <-]; simpl; rewrite ?Hb;
          exists k; (split; [done|]).
        { done. }
        intros Hn. destruct (Hone Hn) as [Hws ->]. rewrite Hws in *. auto.
      * intros [= <-]. simpl. exists (k ++ [p]). split.
        { etrans; [exact Hk|]. by rewrite <- !app_assoc. }
        intros Hn. destruct (Hone Hn) as [Hws ->]. rewrite Hws in *.
        rewrite (H1 Hn). simpl. by rewrite !app_nil_r.
    + intros [= <-]. simpl. exists k. split; [done|].
      intros Hn. destruct (Hone Hn) as [Hws ->]. rewrite Hws in *.
      rewrite (H1 Hn). simpl. destruct (dial p); simpl; by rewrite <- app_assoc.
    + assert (Hsame : nworkers = 1 →
                k = dialed s ++ inflight (<[i:=WRecv]> (workers s))).
      { intros Hn. destruct (Hone Hn) as [Hws ->]. rewrite Hws in *. auto. }
      destruct (closed (resultsCh s)); [intros [= <-]; by exists k|].
      destruct (_ <? _); [intros [= <-]; by exists k|].
      destruct (mainpc s), (buf (resultsCh s)); try done.
      intros [= <-]. by exists k.
  - (* coordinator *)
    intros Hc.
    assert (step_coord s = Some s') as Hc' by by destruct (mainpc s).
    clear Hc. revert Hc'. unfold step_coord, panic.
    destruct (coord s) as [[| |]|]; try done.
    + destruct (wg s =? 0); [|done]. intros [= <-]. by exists k.
    + destruct (closed (resultsCh s)); intros [= <-]; by exists k.
  - (* distributor *)
    intros Hd.
    assert (step_dist s = Some s') as Hd' by by destruct (mainpc s).
    clear Hd. revert Hd'. unfold step_dist, panic.
    destruct (dist s) as [[[|p rest]|]|] eqn:Hds; try done.
    + destruct (closed (portsCh s)); intros [= <-]; simpl; rewrite ?Hds;
        by exists k.
    + destruct (closed (portsCh s)).
      { intros [= <-]. simpl. rewrite ?Hds. by exists k. }
      destruct (_ <? _); [|done]. intros [= <-]. simpl.
      exists k. split; [|done]. etrans; [exact Hk|]. by rewrite <- !app_assoc.
Qed.

Lemma run_ordered sched s s' : inv s → run' sched s = Some s' → ordered s → ordered s'.
Proof.
  revert s. induction sched as [|g sched IH]; intros s HI; simpl.
  - by intros [= <-].
  - destruct (step' g s) as [s1|] eqn:E; [|done]. simpl. intros Hrun Ho.
    apply (IH s1); eauto using step_Inv, step_ordered.
Qed.

End engine_extras.

Lemma main_startup_Scan_inv f ports :
  main_startup f = Scan ports →
  hostFlag f ≠ [] ∧ 1 ≤ workersFlag f ≤ 10000 ∧
  parsePorts (portsFlag f) = inr ports ∧ ports ≠ [].
Proof.
  unfold main_startup.
  destruct (decide (hostFlag f = [])) as [Hh|Hh]; [done|].
  destruct (Z.leb_spec (workersFlag f) 0); [done|].
  destruct (Z.ltb_spec 10000 (workersFlag f)); [done|].
  destruct (parsePorts (portsFlag f)) as [e|l]; [done|].
  destruct (decide (length l = 0%nat)) as [Hl|Hl]; [done|].
  intros [= <-]. repeat split; try done; try lia. by intros ->.
Qed.

(** X9. No false positive, at any moment of any run: every port in the
    slice [open] belongs to the port set, has been dialed, and its dial
    succeeded; and with distinct ports no port is in [open] twice. *)
Theorem open_ports_sound f ports dial :
  1 ≤ workersFlag f →
  ∀ sched s,
    run f ports dial sched (init f) = Some s →
    (∀ p, p ∈ open s → p ∈ ports ∧ p ∈ dialed s ∧ dial p = true) ∧
    (NoDup ports → NoDup (open s)).
Proof.
  intros Hw sched s Hrun.
  assert (HI : Inv f ports dial s) by (apply reachable_Inv; [done|by exists sched]).
  pose proof (inv_jobs _ _ _ _ HI) as Hjobs.
  pose proof (inv_results _ _ _ _ HI) as Hres.
  split.
  - intros p Hp.
    assert (Hf : p ∈ filter (λ p, dial p = true) (dialed s)).
    { rewrite <- Hres. set_solver. }
    apply list_elem_of_filter in Hf as [Hd Hin].
    split; [|done]. rewrite <- Hjobs. set_solver.
  - intros Hnd. rewrite <- Hjobs in Hnd. apply NoDup_app in Hnd as [Hnd _].
    apply (NoDup_filter (λ p, dial p = true)) in Hnd.
    rewrite <- Hres in Hnd. by apply NoDup_app in Hnd as [? _].
Qed.

Lemma open_ports_sound_witness :
  443 ∈ example_ports ∧ 443 ∈ [80; 443] ∧ example_dial 443 = true.
Proof.
  cut (∀ p, p ∈ [443] →
            p ∈ example_ports ∧ p ∈ [80; 443] ∧ example_dial p = true).
  { intros H. apply H. left. }
  destruct (open_ports_sound (example_flags 1) example_ports example_dial)
    with (sched := [GMain; GMain; GMain; GMain; GMain; GDist; GWorker 0;
                    GWorker 0; GDist; GWorker 0; GWorker 0; GWorker 0])
         (s := State MRange [443] (Chan 1 [] false) (make_chan 0) 1 [WRecv]
                     (Some CWait) (Some (DSend [8080])) [80; 443] false)
    as [H _]; [simpl; lia|by vm_compute|exact H].
Defined.

(** X10. The ports leave the job channel in the order of the port list:
    at every moment of every run the list is made of the ports taken by
    the workers so far (in some order), then the ports buffered in the
    channel, then the ports the distributor has still to send. *)
Theorem jobs_in_order f ports dial :
  1 ≤ workersFlag f →
  ∀ sched s,
    run f ports dial sched (init f) = Some s →
    ∃ k, ports = k ++ buf (portsCh s) ++ todo ports s ∧ taken s ≡ₚ k.
Proof.
  intros Hw sched s Hrun.
  pose proof (Inv_init f ports dial Hw) as HI0.
  pose proof (run_Inv f ports dial _ _ _ HI0 Hrun) as HI.
  destruct (run_ordered f ports dial _ _ _ HI0 Hrun (ordered_init f ports))
    as (k & Hk & _).
  exists k. split; [done|].
  pose proof (inv_jobs _ _ _ _ HI) as Hjobs.
  apply (Permutation_app_inv_r (buf (portsCh s) ++ todo ports s)).
  unfold taken. rewrite <- app_assoc, Hjobs. by rewrite Hk at 1.
Qed.

Lemma jobs_in_order_witness :
  ∃ k, example_ports = k ++ [] ++ [8080] ∧ [80; 443] ++ [] ≡ₚ k.
Proof.
  apply (jobs_in_order (example_flags 1) example_ports example_dial)
    with (sched := [GMain; GMain; GMain; GMain; GMain; GDist; GWorker 0;
                    GWorker 0; GDist; GWorker 0; GWorker 0; GWorker 0])
         (s := State MRange [443] (Chan 1 [] false) (make_chan 0) 1 [WRecv]
                     (Some CWait) (Some (DSend [8080])) [80; 443] false);
    [simpl; lia|by vm_compute].
Defined.

(** X11. With an effective worker count of one the scan is sequential: at
    every moment the ports dialed so far are, in order, a prefix of the
    port list, and when [main] has returned they are the port list
    itself. *)
Theorem single_worker_sequential f ports dial :
  1 ≤ workersFlag f → numWorkers f ports = 1 →
  ∀ sched s,
    run f ports dial sched (init f) = Some s →
    dialed s `prefix_of` ports ∧ (mainpc s = MDone → dialed s = ports).
Proof.
  intros Hw Hn sched s Hrun.
  pose proof (Inv_init f ports dial Hw) as HI0.
  pose proof (run_Inv f ports dial _ _ _ HI0 Hrun) as HI.
  destruct (run_ordered f ports dial _ _ _ HI0 Hrun (ordered_init f ports))
    as (k & Hk & Hone).
  specialize (Hone Hn). subst k. unfold taken in Hk.
  assert (Hpre : dialed s `prefix_of` ports).
  { exists (inflight (workers s) ++ buf (portsCh s) ++ todo ports s).
    etrans; [exact Hk|]. by rewrite <- app_assoc. }
  split; [done|]. intros Hdone.
  assert (Hne : ports ≠ []).
  { intros Hnil. rewrite numWorkers_min, Hnil in Hn. simpl in Hn. lia. }
  pose proof (done_dialed f ports dial Hw s HI Hdone Hne) as Hperm.
  destruct Hpre as [rest Hrest].
  assert (Hlen : length rest = 0%nat).
  { apply Permutation_length in Hperm.
    apply (f_equal length) in Hrest. rewrite length_app in Hrest. lia. }
  apply length_zero_iff_nil in Hlen. subst rest.
  etrans; [|symmetry; exact Hrest]. by rewrite app_nil_r.
Qed.

Lemma single_worker_sequential_witness :
  [80; 443] `prefix_of` example_ports.
Proof.
  destruct (single_worker_sequential (example_flags 1) example_ports example_dial)
    with (sched := [GMain; GMain; GMain; GMain; GMain; GDist; GWorker 0;
                    GWorker 0; GDist; GWorker 0; GWorker 0; GWorker 0])
         (s := State MRange [443] (Chan 1 [] false) (make_chan 0) 1 [WRecv]
                     (Some CWait) (Some (DSend [8080])) [80; 443] false)
    as [H _]; [simpl; lia|by vm_compute|by vm_compute|exact H].
Defined.

(** X12. From the flags to the report: when the flags pass the checks of
    [main] and resolve to the ports [ports], the program can always run to
    its end, and whatever the interleaving it prints the host, the number
    of ports, the smaller of the requested worker count and that number,
    the timeout, and then the ports whose dial succeeded in ascending
    order, or "(none found)" when no dial succeeded. *)
Theorem main_report f ports dial :
  main_startup f = Scan ports →
  (∃ sched s, run f ports dial sched (init f) = Some s ∧ mainpc s = MDone) ∧
  (∀ sched s,
     run f ports dial sched (init f) = Some s → mainpc s = MDone →
     print_report <$> report_of f ports s =
     Some ([OutHost (hostFlag f); OutScanned (Z.of_nat (length ports));
            OutWorkers (Z.min (workersFlag f) (Z.of_nat (length ports)));
            OutTimeout (timeoutFlag f); OutOpenPorts]
           ++ (if decide (filter (λ p, dial p = true) ports = [])
               then [OutNoneFound]
               else map OutPort (filter (λ p, dial p = true) ports)))).
Proof.
  intros (Hh & Hw & Hp & Hne)%main_startup_Scan_inv.
  assert (Hw1 : 1 ≤ workersFlag f) by lia.
  pose proof (Inv_init f ports dial Hw1) as HI0.
  split; [by apply can_finish|].
  intros sched s Hrun Hdone.
  pose proof (run_Inv f ports dial _ _ _ HI0 Hrun) as HI.
  assert (Hopen : open s = filter (λ p, dial p = true) ports).
  { rewrite (done_open f ports dial Hw1 s HI Hdone Hne).
    apply sortInts_id, StronglySorted_lt_Sorted_le, filter_StronglySorted.
    by apply parsePorts_sorted with (portsFlag f). }
  unfold report_of. rewrite Hdone. simpl. unfold print_report. simpl.
  rewrite Hopen, numWorkers_min. do 2 f_equal.
  destruct (filter (λ p, dial p = true) ports); done.
Qed.

Lemma main_report_witness :
  ∃ s, run (example_flags 2) example_ports example_dial (example_schedule 2)
           (init (example_flags 2)) = Some s ∧
       print_report <$> report_of (example_flags 2) example_ports s =
       Some [OutHost (go "localhost"); OutScanned 3; OutWorkers 2;
             OutTimeout 500; OutOpenPorts; OutPort 443].
Proof.
  eexists. split; [by vm_compute|].
  destruct (main_report (example_flags 2) example_ports example_dial)
    as [_ Hall]; [by vm_compute|].
  apply (Hall (example_schedule 2)); by vm_compute.
Defined.

(** X13. The wait group counts the workers: at every moment of every run
    its counter is the number of workers started and not yet returned,
    plus one between a [wg.Add(1)] and the [go] statement that follows it;
    it is never negative and never above the effective worker count; and
    once [wg.Wait()] has returned it is zero for good. *)
Theorem wait_group_counter f ports dial :
  1 ≤ workersFlag f →
  ∀ sched s,
    run f ports dial sched (init f) = Some s →
    wg s = live (workers s) + pending_add (mainpc s) ∧
    0 ≤ wg s ≤ numWorkers f ports ∧
    (coord s = Some CClose ∨ coord s = Some CDone → wg s = 0).
Proof.
  intros Hw sched s Hrun.
  assert (HI : Inv f ports dial s) by (apply reachable_Inv; [done|by exists sched]).
  destruct HI as [_ _ _ _ [Hsp1 Hsp2] Hws Hwg Hco _ _ _ _ _ _ _].
  split; [done|]. split.
  - pose proof (live_le_length (workers s)).
    assert (0 ≤ live (workers s)) by (unfold live; lia).
    destruct (mainpc s); simpl in *; lia.
  - intros [Hc|Hc]; rewrite Hc in Hco; tauto.
Qed.

Lemma wait_group_counter_witness :
  (2 : Z) = live [WRecv] + pending_add (MGo 1).
Proof.
  destruct (wait_group_counter (example_flags 2) example_ports example_dial)
    with (sched := [GMain; GMain; GMain])
         (s := State (MGo 1) [] (make_chan 2) (make_chan 0) 2 [WRecv] None None [] false)
    as [H _]; [simpl; lia|by vm_compute|exact H].
Defined.
